(** * Spike encoders of the EEE8116 bioelectronics demos

    A shallow embedding of the numeric core of
    [NeuronInterSpikeCodingDemo.py] and [NeuronLatencyCodingDemo.py]:
    the two threshold encoders ([integrate_and_fire], [timeToFirstSpike]),
    the construction of the output spike train, the pulse shaper
    [AP_SinglePulse], the two signal generators ([information_signal]),
    and the runs of the scripts up to the data [animate] hands to the
    plot.

    The scripts compute on numpy float arrays.  The encoders only add
    samples and compare them, so they are embedded over an abstract
    carrier with exactly these operations and no laws: every theorem of
    the encoder part holds for whatever the operations are.  Concrete
    runs are done on the rationals; the pulse shaper, which needs [exp],
    is read on the real numbers. *)

From Stdlib Require Import List ZArith QArith Lia Sorted.
From Stdlib Require Import Reals Lra.
Import ListNotations.

(* Numerals without a scope mark are natural numbers; integers,
   rationals and reals carry their scope. *)
Close Scope Q_scope.
Close Scope R_scope.
Close Scope Z_scope.
Open Scope nat_scope.

(** ** Results of calls that may raise *)

Inductive exn : Type :=
| ValueError.

Inductive result (A : Type) : Type :=
| Ok (a : A)
| Raise (e : exn).

Arguments Ok {A} a.
Arguments Raise {A} e.

Definition bind {A B : Type} (r : result A) (k : A -> result B) : result B :=
  match r with
  | Ok a => k a
  | Raise e => Raise e
  end.

Notation "x <- r ;; k" := (bind r (fun x => k))
  (at level 61, r at next level, right associativity).

(** ** The operations the encoders use on samples *)

Class SampleOps (T : Type) : Type := {
  zero : T;                 (* the literal 0 *)
  add : T -> T -> T;        (* a + b *)
  geb : T -> T -> bool;     (* a >= b *)
  gtb : T -> T -> bool      (* a > b *)
}.

#[export] Instance Q_samples : SampleOps Q := {
  zero := 0%Q;
  add := Qplus;
  geb := fun a b => Qle_bool b a;
  gtb := fun a b => negb (Qle_bool a b)
}.

Section Encoders.

Context {T : Type} `{SampleOps T}.

(** [np.zeros(int(n))]: numpy refuses a negative dimension. *)
Definition np_zeros (n : Z) : result (list T) :=
  if (n <? 0)%Z then Raise ValueError
  else Ok (repeat zero (Z.to_nat n)).

(** The running integral of a run of samples, added left to right
    from 0 as the loops do. *)
Definition accumulate (xs : list T) : T := fold_left add xs zero.

(** Samples [s], [s+1], ..., [q] of a signal. *)
Definition window (sig : list T) (s q : nat) : list T :=
  firstn (S q - s) (skipn s sig).

(** The construction of the action potential signal, the same text in
    both scripts (lines 71-87 and 98-114): [occ] is what is left of
    [AP_Occurance] from the current position on, [D] the local
    [AP_Duration], which the loop body may overwrite. *)
Fixpoint render_train (singlePulse : list T) (occ : list nat) (D : Z)
         (ApSig : list T) : result (list T) :=
  match occ with
  | p :: (q :: _) as rest =>
      let dT := (Z.of_nat q - Z.of_nat p)%Z in
      let t_remaining := (dT - D)%Z in
      let D' := if (D <? 0)%Z then 0%Z else D in
      interAPVals <- np_zeros t_remaining ;;
      render_train singlePulse rest D' ((ApSig ++ interAPVals) ++ singlePulse)
  | _ => Ok ApSig
  end.

(** The threshold loop with the update of the integral left open:
    the indices recorded from position [i] on, when the integral
    holds [acc].  Both encoders are instances (lemmas
    [iaf_loop_spikes] and [ttfs_loop_spikes]). *)
Fixpoint spikes_from (upd : T -> T -> T) (thr : T) (i : nat)
         (sig : list T) (acc : T) : list nat :=
  match sig with
  | [] => []
  | x :: rest =>
      let v := upd acc x in
      if geb v thr then i :: spikes_from upd thr (S i) rest zero
      else spikes_from upd thr (S i) rest v
  end.

(** The two updates of the integral: line 62 of the inter-spike script
    and lines 83-89 of the latency script. *)
Definition iaf_update (acc x : T) : T := add acc x.

Definition ttfs_update (acc x : T) : T :=
  if gtb x zero then add acc x else zero.

(** The integral the threshold loop is left with after a run of
    samples, started with [acc]. *)
Fixpoint integral_after (upd : T -> T -> T) (thr : T)
         (sig : list T) (acc : T) : T :=
  match sig with
  | [] => acc
  | x :: rest =>
      let v := upd acc x in
      integral_after upd thr rest (if geb v thr then zero else v)
  end.

(** What the integrate-and-fire loop guarantees of a gap that starts
    at [s] and ends with the spike at [q]: the sum over the gap passes
    the test, no shorter sum of the gap does, and the integral held
    before [q] is the plain sum of the earlier samples of the gap. *)
Definition gap_ok (thr : T) (sig : list T) (s q : nat) : Prop :=
  s <= q < length sig /\
  geb (accumulate (window sig s q)) thr = true /\
  (forall j, s <= j < q -> geb (accumulate (window sig s j)) thr = false) /\
  integral_after iaf_update thr (firstn (q - s) (skipn s sig)) zero =
  accumulate (firstn (q - s) (skipn s sig)).

(** What it guarantees after the last spike, the integral having
    restarted at [s]: no sum passes the test. *)
Definition tail_ok (thr : T) (sig : list T) (s : nat) : Prop :=
  forall j, s <= j < length sig ->
            geb (accumulate (window sig s j)) thr = false.

End Encoders.

(** The index at which the integral starts to accumulate for the pair
    of occurrences at positions [k] and [k+1], the earlier being [p]:
    index 0 for the first pair (the leading 0 of [AP_Occurance] is not a
    reset), the index after the reset at [p] for the others. *)
Definition gap_start (k p : nat) : nat :=
  match k with
  | O => O
  | S _ => S p
  end.

(** The differences [dT] of consecutive occurrences. *)
Fixpoint gaps (occ : list nat) : list Z :=
  match occ with
  | p :: (q :: _) as rest => (Z.of_nat q - Z.of_nat p)%Z :: gaps rest
  | _ => []
  end.

(** A sequence that never decreases from one entry to the next. *)
Definition never_decreasing (l : list Z) : Prop :=
  forall k a b, nth_error l k = Some a -> nth_error l (S k) = Some b ->
                (a <= b)%Z.

(** Consecutive entries of a list of indices are at least [D] apart. *)
Definition spaced_by (D : Z) (occ : list nat) : Prop :=
  Forall (fun g => (D <= g)%Z) (gaps occ).

(** ** NeuronInterSpikeCodingDemo.py *)

Module InterSpike.
Section WithSamples.

Context {T : Type} `{SampleOps T}.

(** Lines 57-68: [for i in range(len(informationSig))], with the
    list [AP_Occurance] and [integralValue] as the loop state. *)
Fixpoint threshold_loop (AP_threshold : T) (i : nat) (informationSig : list T)
         (AP_Occurance : list nat) (integralValue : T) : list nat * T :=
  match informationSig with
  | [] => (AP_Occurance, integralValue)
  | x :: rest =>
      let integralValue := add integralValue x in
      if geb integralValue AP_threshold
      then threshold_loop AP_threshold (S i) rest (AP_Occurance ++ [i]) zero
      else threshold_loop AP_threshold (S i) rest AP_Occurance integralValue
  end.

Definition AP_Occurance (informationSig : list T) (AP_threshold : T) : list nat :=
  fst (threshold_loop AP_threshold 0 informationSig [0%nat] zero).

(** The value [integralValue] holds when the iteration of index [i]
    begins: the loop does not look ahead, so this is the state it
    reaches on the first [i] samples. *)
Definition integral_before (informationSig : list T) (AP_threshold : T)
           (i : nat) : T :=
  snd (threshold_loop AP_threshold 0 (firstn i informationSig) [0%nat] zero).

(** Lines 54-94.  The padding of the output is commented out in this
    script. *)
Definition integrate_and_fire (informationSig singlePulse : list T)
           (AP_Duration : Z) (AP_threshold : T) : result (list T) :=
  render_train singlePulse (AP_Occurance informationSig AP_threshold)
               AP_Duration [zero].

End WithSamples.
End InterSpike.

(** ** NeuronLatencyCodingDemo.py *)

Module Latency.
Section WithSamples.

Context {T : Type} `{SampleOps T}.

(** Lines 79-95. *)
Fixpoint threshold_loop (AP_threshold : T) (i : nat) (informationSig : list T)
         (AP_Occurance : list nat) (integralValue : T) : list nat * T :=
  match informationSig with
  | [] => (AP_Occurance, integralValue)
  | x :: rest =>
      let integralValue :=
        if gtb x zero then add integralValue x else zero in
      if geb integralValue AP_threshold
      then threshold_loop AP_threshold (S i) rest (AP_Occurance ++ [i]) zero
      else threshold_loop AP_threshold (S i) rest AP_Occurance integralValue
  end.

Definition AP_Occurance (informationSig : list T) (AP_threshold : T) : list nat :=
  fst (threshold_loop AP_threshold 0 informationSig [0%nat] zero).

(** The value [integralValue] holds when the iteration of index [i]
    begins: the loop does not look ahead, so this is the state it
    reaches on the first [i] samples. *)
Definition integral_before (informationSig : list T) (AP_threshold : T)
           (i : nat) : T :=
  snd (threshold_loop AP_threshold 0 (firstn i informationSig) [0%nat] zero).

(** Lines 116-119: pad with zeros up to the length of the input. *)
Definition pad_to_input (informationSig ApSig : list T) : result (list T) :=
  let lengthDiff :=
    (Z.of_nat (length informationSig) - Z.of_nat (length ApSig))%Z in
  if (lengthDiff >? 0)%Z
  then tail <- np_zeros lengthDiff ;; Ok (ApSig ++ tail)
  else Ok ApSig.

(** Lines 76-121. *)
Definition timeToFirstSpike (informationSig singlePulse : list T)
           (AP_Duration : Z) (AP_threshold : T) : result (list T) :=
  ApSig <- render_train singlePulse (AP_Occurance informationSig AP_threshold)
                        AP_Duration [zero] ;;
  pad_to_input informationSig ApSig.

End WithSamples.
End Latency.

(** ** The pulse shaper [AP_SinglePulse] (the same in both scripts) *)

(** What the pulse shaper needs beyond addition. *)
Class PulseOps (T : Type) : Type := {
  of_int : Z -> T;          (* an integer read as a sample *)
  neg_half : T;             (* the literal -0.5 *)
  fsub : T -> T -> T;       (* a - b *)
  fmul : T -> T -> T;       (* a * b *)
  fdiv : T -> T -> T;       (* a / b *)
  fexp : T -> T             (* np.exp *)
}.

#[export] Instance R_samples : SampleOps R := {
  zero := 0%R;
  add := Rplus;
  geb := fun a b => if Rle_dec b a then true else false;
  gtb := fun a b => if Rlt_dec b a then true else false
}.

#[export] Instance R_pulse : PulseOps R := {
  of_int := IZR;
  neg_half := (-0.5)%R;
  fsub := Rminus;
  fmul := Rmult;
  fdiv := Rdiv;
  fexp := exp
}.

Section PulseShaper.

Context {T : Type} `{SampleOps T} `{PulseOps T}.

(** Sample [k] of [np.linspace(start, stop, num)], endpoint included:
    [k * ((stop - start) / (num - 1)) + start], the last sample set to
    [stop]; a single sample is [start]. *)
Definition linspace_point (start stop num : Z) (k : nat) : T :=
  if (num =? 1)%Z then of_int start
  else if (Z.of_nat k =? num - 1)%Z then of_int stop
  else add (fmul (of_int (Z.of_nat k))
                 (fdiv (fsub (of_int stop) (of_int start))
                       (of_int (num - 1))))
           (of_int start).

(** [np.linspace(start, stop, num)]: numpy refuses a negative number
    of samples. *)
Definition np_linspace (start stop num : Z) : result (list T) :=
  if (num <? 0)%Z then Raise ValueError
  else Ok (map (linspace_point start stop num) (seq 0 (Z.to_nat num))).

(** [A * np.exp(-0.5 * ((t - c) / W)**2)] at one time point. *)
Definition gaussian (A W : T) (c : Z) (t : T) : T :=
  let u := fdiv (fsub t (of_int c)) W in
  fmul A (fexp (fmul neg_half (fmul u u))).

(** Lines 99-107 (126-135 in the latency script). *)
Definition AP_SinglePulse (AP_Duration : Z)
           (AP_PosAmplitude AP_NegAmplitude AP_PosWidth AP_NegWidth : T)
  : result (list T) :=
  AP_timeBase <- np_linspace 0 AP_Duration AP_Duration ;;
  let pos_pulse := map (gaussian AP_PosAmplitude AP_PosWidth 2) AP_timeBase in
  let neg_pulse := map (gaussian AP_NegAmplitude AP_NegWidth 3) AP_timeBase in
  Ok (map (fun ab => add (fst ab) (snd ab)) (combine pos_pulse neg_pulse)).

(** The formula of the specification at a time [t]. *)
Definition pulse_formula (A_pos A_neg W_pos W_neg : T) (t : T) : T :=
  add (gaussian A_pos W_pos 2 t) (gaussian A_neg W_neg 3 t).

End PulseShaper.

(** The time the shaper evaluates the formula at for sample [k] of a
    pulse of [D] samples, on the real numbers. *)
Definition time_point (D : Z) (k : nat) : R :=
  if (D =? 1)%Z then 0%R
  else (IZR (Z.of_nat k) * IZR D / IZR (D - 1))%R.

(** ** The constants of the scripts, and small signals to run on *)

Definition AP_Duration : Z := 5%Z.

Definition demo_pulse : list Q := [4; 1; -0.4; 0; 0]%Q.

(** ** The signal generators and the runs of the two scripts *)

(** What the signal generators need beyond the pulse shaper. *)
Class SignalOps (T : Type) : Type := {
  half : T;                 (* the literal 0.5 *)
  np_pi : T;                (* np.pi *)
  fneg : T -> T;            (* -a *)
  fsin : T -> T;            (* np.sin *)
  fsqrt : T -> T            (* np.sqrt *)
}.

#[export] Instance R_signal : SignalOps R := {
  half := 0.5%R;
  np_pi := PI;
  fneg := Ropp;
  fsin := sin;
  fsqrt := sqrt
}.

(** A [for] loop whose body may raise. *)
Fixpoint for_each {A S : Type} (body : S -> A -> result S) (l : list A)
         (s : S) : result S :=
  match l with
  | [] => Ok s
  | a :: rest => s' <- body s a ;; for_each body rest s'
  end.

(** [np.ones(int(n))]: numpy refuses a negative dimension. *)
Definition np_ones {T : Type} `{PulseOps T} (n : Z) : result (list T) :=
  if (n <? 0)%Z then Raise ValueError
  else Ok (repeat (of_int 1) (Z.to_nat n)).

(** The shift of a time base in [animate]: [timeBase - i * animationSpeed]. *)
Definition shift_left {T : Type} `{PulseOps T} (timeBase : list T)
           (i animationSpeed : Z) : list T :=
  map (fun t => fsub t (of_int (i * animationSpeed))) timeBase.

(** *** NeuronInterSpikeCodingDemo.py *)

Module InterSpikeDemo.

Section WithSamples.

Context {T : Type} `{SampleOps T} `{PulseOps T} `{SignalOps T}.

(** Lines 46-50: [0.5 + (0.5 * np.sin(2 * np.pi * F * t/1000))] on every
    sample of the time base. *)
Definition information_signal (t : list T) (F : T) : list T :=
  map (fun tk =>
         add half
             (fmul half
                   (fsin (fdiv (fmul (fmul (fmul (of_int 2) np_pi) F) tk)
                               (of_int 1000)))))
      t.

End WithSamples.

(** The run of the script (lines 22-37 and 170-181), on the reals. *)
Definition animationSpeed : Z := 4%Z.
Definition sineFrequency : R := 1.5%R.
Definition AP_threshold : R := 30%R.

Definition timeBase_0 : result (list R) := np_linspace 0 20000 20001.

Definition informationSig : result (list R) :=
  tb <- timeBase_0 ;; Ok (information_signal tb sineFrequency).

Definition singlePulse : result (list R) :=
  AP_SinglePulse AP_Duration 4%R (-0.4)%R 0.35%R 0.75%R.

Definition AP_Stream : result (list R) :=
  sig <- informationSig ;;
  pulse <- singlePulse ;;
  InterSpike.integrate_and_fire sig pulse AP_Duration AP_threshold.

(** Line 179: the time base is rebuilt on the length of the signal. *)
Definition timeBase : result (list R) :=
  sig <- informationSig ;;
  np_linspace 0 (Z.of_nat (length sig) - 1) (Z.of_nat (length sig)).

Definition AP_tbase : result (list R) :=
  stream <- AP_Stream ;;
  np_linspace 0 (Z.of_nat (length stream) - 1) (Z.of_nat (length stream)).

(** Lines 113-123.  [line.set_data(x, y)] is read as the pair of arrays
    handed to the line; the result is the data of [line1] and of
    [line2]. *)
Definition animate (i : Z)
  : result ((list R * list R) * (list R * list R)) :=
  tb <- timeBase ;;
  atb <- AP_tbase ;;
  sig <- informationSig ;;
  stream <- AP_Stream ;;
  let t_sinUpdate := shift_left tb i animationSpeed in
  let t_updated := shift_left atb i animationSpeed in
  Ok ((t_sinUpdate, sig), (t_updated, stream)).

End InterSpikeDemo.

(** *** NeuronLatencyCodingDemo.py *)

Module LatencyDemo.

Section WithSamples.

Context {T : Type} `{SampleOps T} `{PulseOps T} `{SignalOps T}.

(** The body of the loop of lines 50-66, for the repetition [i]; the
    state is the pair [(informationSig, informationSigDecay)]. *)
Definition stage (pulseInterval PulseTime : Z) (decayCoeff : T)
           (st : list T * list T) (i : nat) : result (list T * list T) :=
  let level := fdiv (of_int (Z.of_nat i + 1)) (of_int 4) in
  zeroVals <- np_zeros pulseInterval ;;
  ones <- np_ones PulseTime ;;
  let oneVals := map (fun one => fmul one level) ones in
  seq_ <- np_linspace 0 (PulseTime - 1) PulseTime ;;
  let decaySig :=
    map (fun s => fmul (fexp (fmul (fneg decayCoeff) s)) (fsqrt level)) seq_ in
  let combined := zeroVals ++ oneVals in
  let combinedDecay := zeroVals ++ decaySig in
  Ok (fst st ++ combined, snd st ++ combinedDecay).

(** Lines 41-72 with the two lengths and the number of repetitions as
    parameters; [zeroVals] after the loop is the array of zeros of the
    last repetition. *)
Definition staged_signal (pulseInterval PulseTime : Z) (repetitions : nat)
           (decayCoeff : T) : result (list T * list T) :=
  st <- for_each (stage pulseInterval PulseTime decayCoeff)
                 (seq 0 repetitions) ([], []) ;;
  zeroVals <- np_zeros pulseInterval ;;
  Ok (fst st ++ zeroVals, snd st ++ zeroVals).

(** Lines 41-72: [pulseInterval = 800], [PulseTime = 1200],
    [range(4)]. *)
Definition information_signal (decayCoeff : T) : result (list T * list T) :=
  staged_signal 800 1200 4 decayCoeff.

End WithSamples.

(** The run of the script (lines 22-34 and 199-208), on the reals. *)
Definition animationSpeed : Z := 15%Z.
Definition AP_threshold : R := 100%R.

Definition signals : result (list R * list R) := information_signal 0.001%R.

Definition singlePulse : result (list R) :=
  AP_SinglePulse AP_Duration 4%R (-0.4)%R 0.35%R 0.75%R.

Definition AP_Stream : result (list R) :=
  sigs <- signals ;;
  pulse <- singlePulse ;;
  Latency.timeToFirstSpike (snd sigs) pulse AP_Duration AP_threshold.

Definition timeBase : result (list R) :=
  sigs <- signals ;;
  np_linspace 0 (Z.of_nat (length (fst sigs)) - 1)
              (Z.of_nat (length (fst sigs))).

(** Lines 141-151: both lines are drawn over the same shifted time
    base. *)
Definition animate (i : Z)
  : result ((list R * list R) * (list R * list R)) :=
  tb <- timeBase ;;
  sigs <- signals ;;
  stream <- AP_Stream ;;
  let t_updated := shift_left tb i animationSpeed in
  Ok ((t_updated, fst sigs), (t_updated, stream)).

End LatencyDemo.

(** ** Shapes of outputs used in statements *)

(** What the construction renders when the duration is negative: the
    first gap is widened by the duration, and the guard of the loop
    then sets the duration to 0 for the gaps that follow. *)
Definition render_negative {T : Type} `{SampleOps T}
           (singlePulse : list T) (D : Z) (occ : list nat) : list T :=
  match gaps occ with
  | [] => []
  | g :: later =>
      (repeat zero (Z.to_nat (g - D)) ++ singlePulse) ++
      flat_map (fun g' => repeat zero (Z.to_nat g') ++ singlePulse) later
  end.

(** * Facts about the threshold loops *)

Section LoopFacts.

Context {T : Type} `{SampleOps T}.
Variable upd : T -> T -> T.
Variable thr : T.

Lemma spikes_from_app (l1 l2 : list T) :
  forall i acc,
    spikes_from upd thr i (l1 ++ l2) acc =
    spikes_from upd thr i l1 acc ++
    spikes_from upd thr (i + length l1) l2 (integral_after upd thr l1 acc).
Proof.
  induction l1 as [|x l1 IH]; intros i acc; cbn [spikes_from integral_after app length].
  - now rewrite Nat.add_0_r.
  - destruct (geb (upd acc x) thr); rewrite IH;
      replace (S i + length l1) with (i + S (length l1)) by lia; reflexivity.
Qed.

Lemma integral_after_app (l1 l2 : list T) :
  forall acc,
    integral_after upd thr (l1 ++ l2) acc =
    integral_after upd thr l2 (integral_after upd thr l1 acc).
Proof.
  induction l1 as [|x l1 IH]; intros acc; cbn [integral_after app]; auto.
Qed.

Lemma spikes_from_bounds (sig : list T) :
  forall i acc q,
    In q (spikes_from upd thr i sig acc) -> i <= q < i + length sig.
Proof.
  induction sig as [|x sig IH]; intros i acc q; cbn [spikes_from length].
  - intros [].
  - destruct (geb (upd acc x) thr).
    + intros [<- | Hq]; [lia | apply IH in Hq; lia].
    + intros Hq; apply IH in Hq; lia.
Qed.

Lemma spikes_from_sorted (sig : list T) :
  forall i acc, StronglySorted lt (spikes_from upd thr i sig acc).
Proof.
  induction sig as [|x sig IH]; intros i acc; cbn [spikes_from].
  - constructor.
  - destruct (geb (upd acc x) thr); [|apply IH].
    constructor; [apply IH|].
    apply Forall_forall; intros q Hq.
    apply spikes_from_bounds in Hq; lia.
Qed.

(** One more sample at the end: it is recorded exactly when the updated
    integral passes the test, and the integral is then reset. *)
Lemma spikes_from_snoc (sig : list T) (x : T) (i : nat) (acc : T) :
  let v := upd (integral_after upd thr sig acc) x in
  spikes_from upd thr i (sig ++ [x]) acc =
  spikes_from upd thr i sig acc ++
  (if geb v thr then [i + length sig] else []).
Proof.
  cbn zeta. rewrite spikes_from_app. cbn [spikes_from].
  destruct (geb _ thr); reflexivity.
Qed.

Lemma integral_after_snoc (sig : list T) (x : T) (acc : T) :
  let v := upd (integral_after upd thr sig acc) x in
  integral_after upd thr (sig ++ [x]) acc = if geb v thr then zero else v.
Proof.
  cbn zeta. rewrite integral_after_app. reflexivity.
Qed.

End LoopFacts.

Section SourceLoops.

Context {T : Type} `{SampleOps T}.
Variable thr : T.

Lemma iaf_loop_spikes (sig : list T) :
  forall i occ acc,
    InterSpike.threshold_loop thr i sig occ acc =
    (occ ++ spikes_from iaf_update thr i sig acc,
     integral_after iaf_update thr sig acc).
Proof.
  induction sig as [|x sig IH]; intros i occ acc;
    cbn [InterSpike.threshold_loop spikes_from integral_after].
  - now rewrite app_nil_r.
  - change (add acc x) with (iaf_update acc x).
    destruct (geb (iaf_update acc x) thr); rewrite IH; [|reflexivity].
    now rewrite <- app_assoc.
Qed.

Lemma ttfs_loop_spikes (sig : list T) :
  forall i occ acc,
    Latency.threshold_loop thr i sig occ acc =
    (occ ++ spikes_from ttfs_update thr i sig acc,
     integral_after ttfs_update thr sig acc).
Proof.
  induction sig as [|x sig IH]; intros i occ acc;
    cbn [Latency.threshold_loop spikes_from integral_after].
  - now rewrite app_nil_r.
  - fold (ttfs_update acc x).
    destruct (geb (ttfs_update acc x) thr); rewrite IH; [|reflexivity].
    now rewrite <- app_assoc.
Qed.

Lemma iaf_occurrences (sig : list T) :
  InterSpike.AP_Occurance sig thr = 0 :: spikes_from iaf_update thr 0 sig zero.
Proof. unfold InterSpike.AP_Occurance. now rewrite iaf_loop_spikes. Qed.

Lemma ttfs_occurrences (sig : list T) :
  Latency.AP_Occurance sig thr = 0 :: spikes_from ttfs_update thr 0 sig zero.
Proof. unfold Latency.AP_Occurance. now rewrite ttfs_loop_spikes. Qed.

(** The loops do not look ahead: the run on the whole signal passes
    through the state reached on its first [i] samples. *)
Lemma iaf_loop_resume (sig : list T) (i : nat) :
  i <= length sig ->
  InterSpike.threshold_loop thr 0 sig [0] zero =
  let st := InterSpike.threshold_loop thr 0 (firstn i sig) [0] zero in
  InterSpike.threshold_loop thr i (skipn i sig) (fst st) (snd st).
Proof.
  intros Hi. cbn zeta. rewrite !iaf_loop_spikes. cbn [fst snd].
  rewrite <- (firstn_skipn i sig) at 1 2.
  rewrite spikes_from_app, integral_after_app, length_firstn.
  rewrite (Nat.min_l i (length sig) Hi), <- app_assoc. reflexivity.
Qed.

Lemma ttfs_loop_resume (sig : list T) (i : nat) :
  i <= length sig ->
  Latency.threshold_loop thr 0 sig [0] zero =
  let st := Latency.threshold_loop thr 0 (firstn i sig) [0] zero in
  Latency.threshold_loop thr i (skipn i sig) (fst st) (snd st).
Proof.
  intros Hi. cbn zeta. rewrite !ttfs_loop_spikes. cbn [fst snd].
  rewrite <- (firstn_skipn i sig) at 1 2.
  rewrite spikes_from_app, integral_after_app, length_firstn.
  rewrite (Nat.min_l i (length sig) Hi), <- app_assoc. reflexivity.
Qed.

Lemma iaf_integral_before (sig : list T) (i : nat) :
  InterSpike.integral_before sig thr i =
  integral_after iaf_update thr (firstn i sig) zero.
Proof. unfold InterSpike.integral_before. now rewrite iaf_loop_spikes. Qed.

Lemma ttfs_integral_before (sig : list T) (i : nat) :
  Latency.integral_before sig thr i =
  integral_after ttfs_update thr (firstn i sig) zero.
Proof. unfold Latency.integral_before. now rewrite ttfs_loop_spikes. Qed.

End SourceLoops.

(** * Facts about both encoders at once *)

Section Recording.

Context {T : Type} `{SampleOps T}.
Variable upd : T -> T -> T.
Variable thr : T.

Lemma firstn_S_nth_error (sig : list T) (q : nat) (x : T) :
  nth_error sig q = Some x -> firstn (S q) sig = firstn q sig ++ [x].
Proof.
  revert q; induction sig as [|y sig IH]; intros [|q]; cbn; try discriminate.
  - now intros [= ->].
  - intros Hq. now rewrite <- (IH q Hq).
Qed.

Lemma split_at_nth_error (sig : list T) (q : nat) (x : T) :
  nth_error sig q = Some x ->
  sig = firstn q sig ++ x :: skipn (S q) sig /\ length (firstn q sig) = q.
Proof.
  intros Hq. split.
  - rewrite <- (firstn_skipn q sig) at 1. f_equal.
    revert q Hq; induction sig as [|y sig IH]; intros [|q]; cbn; try discriminate.
    + now intros [= ->].
    + apply IH.
  - apply firstn_length_le.
    assert (q < length sig); [|lia].
    apply nth_error_Some. congruence.
Qed.

(** Index [q] is recorded exactly when the integral held at the start
    of its iteration, updated with the sample, passes the test. *)
Lemma recorded_iff (sig : list T) (q : nat) (x : T) :
  nth_error sig q = Some x ->
  In q (spikes_from upd thr 0 sig zero) <->
  geb (upd (integral_after upd thr (firstn q sig) zero) x) thr = true.
Proof.
  intros Hq. destruct (split_at_nth_error _ _ _ Hq) as [Hsplit Hlen].
  rewrite Hsplit at 1. rewrite spikes_from_app, Hlen. cbn [spikes_from Nat.add].
  rewrite in_app_iff.
  destruct (geb _ thr) eqn:Hv; split; intros Hin; try reflexivity.
  - right; left; reflexivity.
  - destruct Hin as [Hin | Hin]; apply spikes_from_bounds in Hin.
    + rewrite Hlen in Hin. lia.
    + lia.
  - discriminate.
Qed.

Lemma integral_after_step (sig : list T) (q : nat) (x : T) :
  nth_error sig q = Some x ->
  let v := upd (integral_after upd thr (firstn q sig) zero) x in
  integral_after upd thr (firstn (S q) sig) zero = if geb v thr then zero else v.
Proof.
  intros Hq. cbn zeta. rewrite (firstn_S_nth_error _ _ _ Hq).
  apply integral_after_snoc.
Qed.

Lemma reset_after_recorded (sig : list T) (p : nat) :
  In p (spikes_from upd thr 0 sig zero) ->
  integral_after upd thr (firstn (S p) sig) zero = zero.
Proof.
  intros Hin.
  assert (Hp : p < length sig) by (apply spikes_from_bounds in Hin; lia).
  destruct (nth_error sig p) as [x|] eqn:Hx;
    [|apply nth_error_None in Hx; lia].
  rewrite (integral_after_step _ _ _ Hx).
  apply (recorded_iff _ _ _ Hx) in Hin. now rewrite Hin.
Qed.

End Recording.

(** * The integrate-and-fire loop: sums over the gaps *)

Section GapSums.

Context {T : Type} `{SampleOps T}.
Variable thr : T.

(** Without a crossing the integral is the plain sum. *)
Lemma iaf_first_spike (sig : list T) :
  forall i acc q tl,
    spikes_from iaf_update thr i sig acc = q :: tl ->
    i <= q < i + length sig /\
    geb (fold_left add (firstn (S (q - i)) sig) acc) thr = true /\
    (forall j, i <= j < q ->
               geb (fold_left add (firstn (S (j - i)) sig) acc) thr = false) /\
    tl = spikes_from iaf_update thr (S q) (skipn (S (q - i)) sig) zero /\
    integral_after iaf_update thr (firstn (q - i) sig) acc =
    fold_left add (firstn (q - i) sig) acc.
Proof.
  induction sig as [|x sig IH]; intros i acc q tl; cbn [spikes_from length].
  - discriminate.
  - destruct (geb (iaf_update acc x) thr) eqn:Hv.
    + intros [= <- <-]. rewrite Nat.sub_diag. cbn.
      repeat split; try lia; auto.
    + intros Hs. destruct (IH _ _ _ _ Hs) as (Hb & Hge & Hlt & Htl & Hint).
      replace (q - i) with (S (q - S i)) by lia.
      cbn [firstn skipn fold_left integral_after]. fold (iaf_update acc x).
      rewrite Hv. repeat split; try lia; auto.
      intros j Hj. destruct (Nat.eq_dec j i) as [-> | Hne].
      * rewrite Nat.sub_diag. cbn. exact Hv.
      * replace (j - i) with (S (j - S i)) by lia.
        cbn [firstn fold_left]. apply Hlt. lia.
Qed.

Lemma iaf_no_spike (sig : list T) :
  forall i acc,
    spikes_from iaf_update thr i sig acc = [] ->
    forall j, i <= j < i + length sig ->
              geb (fold_left add (firstn (S (j - i)) sig) acc) thr = false.
Proof.
  induction sig as [|x sig IH]; intros i acc; cbn [spikes_from length].
  - intros _ j Hj. lia.
  - destruct (geb (iaf_update acc x) thr) eqn:Hv; [discriminate|].
    intros Hs j Hj. destruct (Nat.eq_dec j i) as [-> | Hne].
    + rewrite Nat.sub_diag. cbn. exact Hv.
    + replace (j - i) with (S (j - S i)) by lia.
      cbn [firstn fold_left]. apply (IH _ _ Hs). lia.
Qed.

Lemma iaf_head_gap (sig : list T) (s : nat) :
  s <= length sig ->
  match spikes_from iaf_update thr s (skipn s sig) zero with
  | q :: tl => gap_ok thr sig s q /\
               tl = spikes_from iaf_update thr (S q) (skipn (S q) sig) zero
  | [] => tail_ok thr sig s
  end.
Proof.
  intros Hs.
  assert (Hlen : s + length (skipn s sig) = length sig)
    by (rewrite length_skipn; lia).
  destruct (spikes_from _ _ _ _ _) as [|q tl] eqn:Hsp.
  - intros j Hj. unfold accumulate, window.
    replace (S j - s) with (S (j - s)) by lia.
    apply (iaf_no_spike _ _ _ Hsp). lia.
  - destruct (iaf_first_spike _ _ _ _ _ Hsp) as (Hb & Hge & Hlt & Htl & Hint).
    split; [unfold gap_ok, accumulate, window; repeat split; try lia|].
    + replace (S q - s) with (S (q - s)) by lia. exact Hge.
    + intros j Hj. replace (S j - s) with (S (j - s)) by lia. now apply Hlt.
    + exact Hint.
    + rewrite Htl, skipn_skipn. do 2 f_equal. lia.
Qed.

Lemma iaf_later_gaps (sig : list T) :
  forall k s p,
    s <= length sig ->
    nth_error (spikes_from iaf_update thr s (skipn s sig) zero) k = Some p ->
    match nth_error (spikes_from iaf_update thr s (skipn s sig) zero) (S k) with
    | Some q => gap_ok thr sig (S p) q
    | None => tail_ok thr sig (S p)
    end.
Proof.
  induction k as [|k IH]; intros s p Hs Hp;
    pose proof (iaf_head_gap sig s Hs) as Hhead;
    destruct (spikes_from iaf_update thr s (skipn s sig) zero) as [|p' tl];
    try discriminate; destruct Hhead as [Hgap Htl];
    assert (Hp' : S p' <= length sig) by (destruct Hgap; lia).
  - injection Hp as ->. cbn [nth_error].
    pose proof (iaf_head_gap sig (S p) Hp') as Hnext. rewrite <- Htl in Hnext.
    destruct tl as [|q tl']; cbn [nth_error]; [exact Hnext | apply Hnext].
  - cbn [nth_error] in Hp |- *. rewrite Htl in Hp |- *.
    apply (IH _ _ Hp' Hp).
Qed.

End GapSums.

Section IntegrateAndFire.

Context {T : Type} `{SampleOps T}.
Variable thr : T.

Lemma firstn_split_at (sig : list T) (s q : nat) :
  s <= q -> s <= length sig ->
  firstn q sig = firstn s sig ++ firstn (q - s) (skipn s sig).
Proof.
  intros Hsq Hs. rewrite <- (firstn_skipn s sig) at 1.
  rewrite firstn_app, firstn_firstn, length_firstn.
  rewrite (Nat.min_r q s Hsq), (Nat.min_l s (length sig) Hs). reflexivity.
Qed.

Lemma gap_ok_before (sig : list T) (s q : nat) :
  gap_ok thr sig s q -> geb zero thr = false ->
  geb (accumulate (firstn (q - s) (skipn s sig))) thr = false.
Proof.
  intros (Hb & _ & Hlt & _) Hpos.
  destruct (Nat.eq_dec q s) as [-> | Hne].
  - rewrite Nat.sub_diag. exact Hpos.
  - specialize (Hlt (q - 1)). unfold window in Hlt.
    replace (S (q - 1) - s) with (q - s) in Hlt by lia. apply Hlt. lia.
Qed.

(** The integral held before a spike is the sum of the earlier samples
    of its gap. *)
Lemma iaf_integral_before_gap (sig : list T) (s q : nat) :
  gap_ok thr sig s q ->
  integral_after iaf_update thr (firstn s sig) zero = zero ->
  InterSpike.integral_before sig thr q =
  accumulate (firstn (q - s) (skipn s sig)).
Proof.
  intros (Hb & _ & _ & Hint) Hreset.
  rewrite iaf_integral_before, (firstn_split_at sig s q) by lia.
  now rewrite integral_after_app, Hreset.
Qed.

Lemma iaf_pair_gap (sig : list T) (k p q : nat) :
  nth_error (InterSpike.AP_Occurance sig thr) k = Some p ->
  nth_error (InterSpike.AP_Occurance sig thr) (S k) = Some q ->
  gap_ok thr sig (gap_start k p) q /\
  integral_after iaf_update thr (firstn (gap_start k p) sig) zero = zero.
Proof.
  rewrite iaf_occurrences. destruct k as [|k]; cbn [gap_start].
  - intros _ Hq.
    pose proof (iaf_head_gap thr sig 0 (Nat.le_0_l _)) as Hhead.
    change (skipn 0 sig) with sig in Hhead.
    change (nth_error (spikes_from iaf_update thr 0 sig zero) 0 = Some q) in Hq.
    destruct (spikes_from iaf_update thr 0 sig zero) as [|q' tl];
      [discriminate|].
    injection Hq as ->. split; [apply Hhead | reflexivity].
  - intros Hp Hq.
    change (nth_error (spikes_from iaf_update thr 0 sig zero) (S k) = Some q)
      in Hq.
    pose proof (iaf_later_gaps thr sig k 0 p (Nat.le_0_l _)) as Hgap.
    change (skipn 0 sig) with sig in Hgap.
    specialize (Hgap Hp). rewrite Hq in Hgap.
    split; [exact Hgap|].
    apply reset_after_recorded. eapply nth_error_In; eassumption.
Qed.

End IntegrateAndFire.

(** * The claims on the integrate-and-fire encoder *)

(** C1, as amended.  The integrate-and-fire loop starts from an integral
    of 0, adds every sample to it, records index [i] exactly when the
    integral then reaches the threshold, and resets it to 0 after a
    record.  For two consecutive occurrences, the sum accumulated over
    the gap (from index 0 for the first pair, from the index after the
    earlier spike for the others) reaches the threshold, no shorter sum
    of the gap does, the integral held just before the spike index is
    the sum of the earlier samples of the gap, and it is below the
    threshold when the threshold is positive. *)
Theorem integrate_and_fire_crossings {T : Type} `{SampleOps T}
        (sig : list T) (thr : T) :
  InterSpike.integral_before sig thr 0 = zero /\
  (forall i x,
     nth_error sig i = Some x ->
     let v := add (InterSpike.integral_before sig thr i) x in
     (In i (tl (InterSpike.AP_Occurance sig thr)) <-> geb v thr = true) /\
     InterSpike.integral_before sig thr (S i) = (if geb v thr then zero else v)) /\
  (forall k p q,
     nth_error (InterSpike.AP_Occurance sig thr) k = Some p ->
     nth_error (InterSpike.AP_Occurance sig thr) (S k) = Some q ->
     let s := gap_start k p in
     s <= q < length sig /\
     geb (accumulate (window sig s q)) thr = true /\
     (forall j, s <= j < q -> geb (accumulate (window sig s j)) thr = false) /\
     InterSpike.integral_before sig thr q =
     accumulate (firstn (q - s) (skipn s sig)) /\
     (geb zero thr = false ->
      geb (InterSpike.integral_before sig thr q) thr = false)).
Proof.
  split; [reflexivity|]. split.
  - intros i x Hx v. subst v.
    rewrite iaf_occurrences, !iaf_integral_before. cbn [tl]. split.
    + apply (recorded_iff iaf_update thr sig i x Hx).
    + apply (integral_after_step iaf_update thr sig i x Hx).
  - intros k p q Hp Hq s. subst s.
    destruct (iaf_pair_gap thr sig k p q Hp Hq) as [Hgap Hreset].
    pose proof (iaf_integral_before_gap thr sig _ q Hgap Hreset) as Hbefore.
    pose proof (gap_ok_before thr sig _ q Hgap) as Hlow.
    destruct Hgap as (Hb & Hge & Hlt & _).
    repeat split; try apply Hb; auto.
    intros Hpos. rewrite Hbefore. now apply Hlow.
Qed.

(** C1 on the signal [10; 20; 30; 5] with the threshold 30 of the script:
    the occurrences are 0, 1, 2, and the gap of the last pair is the
    single sample at index 2. *)
Lemma integrate_and_fire_crossings_witness :
  let sig := [10; 20; 30; 5]%Q in
  let thr := 30%Q in
  InterSpike.AP_Occurance sig thr = [0; 1; 2] /\
  geb (accumulate (window sig 2 2)) thr = true /\
  InterSpike.integral_before sig thr 2 = accumulate (firstn 0 (skipn 2 sig)) /\
  geb (InterSpike.integral_before sig thr 2) thr = false.
Proof.
  intros sig thr. split; [reflexivity|].
  destruct (integrate_and_fire_crossings sig thr) as (_ & _ & Hpairs).
  destruct (Hpairs 1 1 2 eq_refl eq_refl) as (_ & Hge & _ & Hbefore & Hlow).
  split; [exact Hge|]. split; [exact Hbefore|].
  apply Hlow. reflexivity.
Defined.

(** C1 as stated fails for a threshold of 0: on the signal [1; 1] the
    occurrences are 0, 0, 1, and the integral held just before the
    spike at index 1 is the reset value 0, which is not below the
    threshold. *)
Lemma integrate_and_fire_crossings_counterexample :
  let sig := [1; 1]%Q in
  let thr := 0%Q in
  ~ (forall k p q,
       nth_error (InterSpike.AP_Occurance sig thr) k = Some p ->
       nth_error (InterSpike.AP_Occurance sig thr) (S k) = Some q ->
       geb (accumulate (window sig (gap_start k p) q)) thr = true /\
       geb (InterSpike.integral_before sig thr q) thr = false).
Proof.
  intros sig thr Hclaim.
  destruct (Hclaim 1 0 1 eq_refl eq_refl) as [_ Hlow].
  vm_compute in Hlow. discriminate.
Qed.

(** * The claims on the gated encoder *)

(** C2, as amended.  In the time-to-first-spike loop a sample that is
    not strictly positive resets the integral to 0, and its index is
    recorded exactly when 0 itself reaches the threshold; a strictly
    positive sample is added to the integral.  So for a positive
    threshold no index with a sample that is not strictly positive is
    ever recorded. *)
Theorem timeToFirstSpike_gating {T : Type} `{SampleOps T}
        (sig : list T) (thr : T) :
  (forall i x,
     nth_error sig i = Some x -> gtb x zero = false ->
     Latency.integral_before sig thr (S i) = zero /\
     (In i (tl (Latency.AP_Occurance sig thr)) <-> geb zero thr = true)) /\
  (forall i x,
     nth_error sig i = Some x -> gtb x zero = true ->
     let v := add (Latency.integral_before sig thr i) x in
     (In i (tl (Latency.AP_Occurance sig thr)) <-> geb v thr = true) /\
     Latency.integral_before sig thr (S i) = (if geb v thr then zero else v)) /\
  (geb zero thr = false ->
   forall i x,
     nth_error sig i = Some x -> gtb x zero = false ->
     ~ In i (tl (Latency.AP_Occurance sig thr))).
Proof.
  assert (Hstep : forall i x,
            nth_error sig i = Some x ->
            let v := ttfs_update (Latency.integral_before sig thr i) x in
            (In i (tl (Latency.AP_Occurance sig thr)) <-> geb v thr = true) /\
            Latency.integral_before sig thr (S i) =
            (if geb v thr then zero else v)).
  { intros i x Hx v. subst v.
    rewrite ttfs_occurrences, !ttfs_integral_before. cbn [tl]. split.
    - apply (recorded_iff ttfs_update thr sig i x Hx).
    - apply (integral_after_step ttfs_update thr sig i x Hx). }
  assert (Hgate : forall i x,
            nth_error sig i = Some x -> gtb x zero = false ->
            Latency.integral_before sig thr (S i) = zero /\
            (In i (tl (Latency.AP_Occurance sig thr)) <-> geb zero thr = true)).
  { intros i x Hx Hneg. destruct (Hstep i x Hx) as [Hrec Hnext].
    unfold ttfs_update in Hrec, Hnext. rewrite Hneg in Hrec, Hnext.
    split; [|exact Hrec]. rewrite Hnext. now destruct (geb zero thr). }
  split; [exact Hgate|]. split.
  - intros i x Hx Hpos v. subst v. destruct (Hstep i x Hx) as [Hrec Hnext].
    unfold ttfs_update in Hrec, Hnext. rewrite Hpos in Hrec, Hnext.
    split; assumption.
  - intros Hthr i x Hx Hneg Hin.
    apply (Hgate i x Hx Hneg) in Hin. congruence.
Qed.

(** C2 on a burst between two silent runs, with the threshold 1: the
    silent index 3 is not recorded. *)
Lemma timeToFirstSpike_gating_witness :
  let sig := [0; 0.5; 0.5; 0; 0.5]%Q in
  let thr := 1%Q in
  Latency.AP_Occurance sig thr = [0; 2] /\
  ~ In 3 (tl (Latency.AP_Occurance sig thr)).
Proof.
  intros sig thr. split; [reflexivity|].
  destruct (timeToFirstSpike_gating sig thr) as (_ & _ & Hsilent).
  apply (Hsilent eq_refl 3 0%Q); reflexivity.
Defined.

(** C2 as stated fails for a threshold of 0: on the signal [0; 1] the
    index 0 is recorded although its sample is 0. *)
Lemma timeToFirstSpike_gating_counterexample :
  let sig := [0; 1]%Q in
  let thr := 0%Q in
  ~ (forall i x,
       nth_error sig i = Some x -> gtb x zero = false ->
       ~ In i (tl (Latency.AP_Occurance sig thr))).
Proof.
  intros sig thr Hclaim.
  apply (Hclaim 0 0%Q eq_refl eq_refl).
  vm_compute. left; reflexivity.
Qed.

(** * The construction of the output *)

Section RenderTrain.

Context {T : Type} `{SampleOps T}.
Variable singlePulse : list T.

Lemma np_zeros_ok (n : Z) :
  (0 <= n)%Z -> np_zeros n = Ok (repeat (zero : T) (Z.to_nat n)).
Proof.
  intros Hn. unfold np_zeros.
  destruct (Z.ltb_spec n 0); [lia | reflexivity].
Qed.

Lemma np_zeros_raises (n : Z) :
  (n < 0)%Z -> np_zeros n = (Raise ValueError : result (list T)).
Proof.
  intros Hn. unfold np_zeros.
  destruct (Z.ltb_spec n 0); [reflexivity | lia].
Qed.

Lemma render_train_pair (p q : nat) (rest : list nat) (D : Z) (ApSig : list T) :
  render_train singlePulse (p :: q :: rest) D ApSig =
  (interAPVals <- np_zeros (Z.of_nat q - Z.of_nat p - D) ;;
   render_train singlePulse (q :: rest) (if (D <? 0)%Z then 0%Z else D)
                ((ApSig ++ interAPVals) ++ singlePulse)).
Proof. reflexivity. Qed.

(** The segments a well-spaced occurrence list is rendered to: for
    each gap, [gap - D] zeros and one pulse. *)
Lemma render_train_spaced (D : Z) (occ : list nat) :
  (0 <= D)%Z -> spaced_by D occ ->
  forall ApSig,
    render_train singlePulse occ D ApSig =
    Ok (ApSig ++ flat_map (fun g => repeat zero (Z.to_nat (g - D)) ++ singlePulse)
                          (gaps occ)).
Proof.
  intros HD. unfold spaced_by.
  induction occ as [|p rest IH]; intros Hsp ApSig.
  - cbn. now rewrite app_nil_r.
  - destruct rest as [|q rest'].
    + cbn. now rewrite app_nil_r.
    + cbn [gaps] in Hsp. inversion Hsp as [|g gs Hg Hrest]; subst.
      rewrite render_train_pair. cbn [gaps flat_map].
      rewrite np_zeros_ok by lia. cbn [bind].
      destruct (Z.ltb_spec D 0); [lia|].
      rewrite (IH Hrest). now rewrite <- !app_assoc.
Qed.

(** A gap shorter than the pulse makes the construction raise. *)
Lemma render_train_short_gap (D : Z) (occ : list nat) :
  (0 <= D)%Z -> ~ spaced_by D occ ->
  forall ApSig, render_train singlePulse occ D ApSig = Raise ValueError.
Proof.
  intros HD. unfold spaced_by.
  induction occ as [|p rest IH]; intros Hsp ApSig.
  - exfalso. apply Hsp. constructor.
  - destruct rest as [|q rest'].
    + exfalso. apply Hsp. constructor.
    + rewrite render_train_pair.
      destruct (Z.ltb_spec (Z.of_nat q - Z.of_nat p - D) 0) as [Hshort | Hlong].
      * now rewrite np_zeros_raises.
      * rewrite np_zeros_ok by assumption. cbn [bind].
        destruct (Z.ltb_spec D 0); [lia|].
        apply IH. intros Hrest. apply Hsp. cbn [gaps].
        constructor; [lia | exact Hrest].
Qed.

(** Whatever is rendered extends the signal the loop started with. *)
Lemma render_train_extends (occ : list nat) :
  forall D ApSig out,
    render_train singlePulse occ D ApSig = Ok out ->
    exists rest, out = ApSig ++ rest.
Proof.
  induction occ as [|p rest IH]; intros D ApSig out.
  - cbn. intros [= <-]. exists []. now rewrite app_nil_r.
  - destruct rest as [|q rest'].
    + cbn. intros [= <-]. exists []. now rewrite app_nil_r.
    + rewrite render_train_pair.
      destruct (np_zeros _) as [zs|e]; cbn [bind]; [|discriminate].
      intros Hr. apply IH in Hr. destruct Hr as [more ->].
      exists (zs ++ singlePulse ++ more). now rewrite <- !app_assoc.
Qed.

End RenderTrain.

Section Padding.

Context {T : Type} `{SampleOps T}.

Lemma pad_to_input_spec (sig ApSig : list T) :
  Latency.pad_to_input sig ApSig =
  Ok (ApSig ++ repeat zero (length sig - length ApSig)).
Proof.
  unfold Latency.pad_to_input.
  destruct (Z.gtb_spec (Z.of_nat (length sig) - Z.of_nat (length ApSig)) 0)
    as [Hpos | Hneg].
  - rewrite np_zeros_ok by lia. cbn [bind]. do 3 f_equal. lia.
  - replace (length sig - length ApSig) with 0 by lia.
    cbn. now rewrite app_nil_r.
Qed.

End Padding.

(** * The claims on the output *)

(** C3.  For a pulse duration that is not negative, the construction
    of the output returns, with [gap - AP_Duration] zeros before each
    pulse, when every gap is at least the duration, and it raises as
    soon as one gap is shorter: the count passed to [np.zeros] is not
    clamped. *)
Theorem render_train_short_gap_raises {T : Type} `{SampleOps T}
        (singlePulse : list T) (occ : list nat) (D : Z) (ApSig : list T) :
  (0 <= D)%Z ->
  (spaced_by D occ ->
   render_train singlePulse occ D ApSig =
   Ok (ApSig ++ flat_map (fun g => repeat zero (Z.to_nat (g - D)) ++ singlePulse)
                         (gaps occ))) /\
  (~ spaced_by D occ ->
   render_train singlePulse occ D ApSig = Raise ValueError).
Proof.
  intros HD. split; intros Hsp.
  - now apply render_train_spaced.
  - now apply render_train_short_gap.
Qed.

(** C3 on ten samples of 1 with threshold 5 and a pulse of 5 samples:
    the first spike is at index 4, four steps after the leading 0, and
    both encoders raise. *)
Lemma render_train_short_gap_raises_witness :
  let sig := repeat 1%Q 10 in
  (0 <= AP_Duration)%Z /\
  InterSpike.AP_Occurance sig 5%Q = [0; 4; 9] /\
  InterSpike.integrate_and_fire sig demo_pulse AP_Duration 5%Q =
  Raise ValueError /\
  Latency.timeToFirstSpike sig demo_pulse AP_Duration 5%Q =
  Raise ValueError.
Proof.
  intros sig.
  assert (HD : (0 <= AP_Duration)%Z) by (unfold AP_Duration; lia).
  assert (Hshort : ~ spaced_by AP_Duration [0; 4; 9]).
  { intros Hsp. inversion Hsp as [|g gs Hg _]. revert Hg. vm_compute.
    intros Hg. apply Hg. reflexivity. }
  split; [exact HD|]. split; [reflexivity|].
  unfold InterSpike.integrate_and_fire, Latency.timeToFirstSpike.
  change (InterSpike.AP_Occurance sig 5%Q) with [0; 4; 9].
  change (Latency.AP_Occurance sig 5%Q) with [0; 4; 9].
  rewrite (proj2 (render_train_short_gap_raises demo_pulse [0; 4; 9]
                    AP_Duration [zero] HD) Hshort).
  split; reflexivity.
Defined.

(** C4, as amended.  When no spike is recorded (the occurrence list
    holds the leading 0 only), no pulse is rendered: the
    integrate-and-fire encoder returns the single sample 0, and the
    gated encoder returns that sample padded with zeros to the length
    of the input. *)
Theorem no_spike_output {T : Type} `{SampleOps T}
        (sig singlePulse : list T) (D : Z) (thr : T) :
  (length (InterSpike.AP_Occurance sig thr) < 2 ->
   InterSpike.integrate_and_fire sig singlePulse D thr = Ok [zero]) /\
  (length (Latency.AP_Occurance sig thr) < 2 ->
   Latency.timeToFirstSpike sig singlePulse D thr =
   Ok (zero :: repeat zero (length sig - 1))).
Proof.
  split.
  - unfold InterSpike.integrate_and_fire. rewrite iaf_occurrences.
    destruct (spikes_from _ _ _ _ _) as [|q tl]; cbn [length]; [|lia].
    reflexivity.
  - unfold Latency.timeToFirstSpike. rewrite ttfs_occurrences.
    destruct (spikes_from _ _ _ _ _) as [|q tl]; cbn [length]; [|lia].
    intros _. cbn [render_train bind]. now rewrite pad_to_input_spec.
Qed.

(** C4 on three samples of 0.5 with the threshold 100 of the latency
    script. *)
Lemma no_spike_output_witness :
  let sig := [0.5; 0.5; 0.5]%Q in
  InterSpike.integrate_and_fire sig demo_pulse AP_Duration 100%Q = Ok [0%Q] /\
  Latency.timeToFirstSpike sig demo_pulse AP_Duration 100%Q =
  Ok [0%Q; 0%Q; 0%Q].
Proof.
  intros sig.
  destruct (no_spike_output sig demo_pulse AP_Duration 100%Q) as [Hiaf Httfs].
  split.
  - apply Hiaf. vm_compute. lia.
  - apply Httfs. vm_compute. lia.
Defined.

(** C4 as stated fails for the gated encoder: on three samples of 0.5
    with threshold 100 no spike is recorded, and the output has three
    samples. *)
Lemma no_spike_output_counterexample :
  let sig := [0.5; 0.5; 0.5]%Q in
  length (Latency.AP_Occurance sig 100%Q) < 2 /\
  Latency.timeToFirstSpike sig demo_pulse AP_Duration 100%Q <> Ok [zero].
Proof.
  intros sig. split.
  - vm_compute. lia.
  - vm_compute. discriminate.
Qed.

(** C5.  Whatever the gated encoder returns is the rendered train
    followed by as many zeros as the train is shorter than the input,
    so it is at least as long as the input. *)
Theorem timeToFirstSpike_output_length {T : Type} `{SampleOps T}
        (sig singlePulse : list T) (D : Z) (thr : T) (out : list T) :
  Latency.timeToFirstSpike sig singlePulse D thr = Ok out ->
  length sig <= length out /\
  exists train,
    render_train singlePulse (Latency.AP_Occurance sig thr) D [zero] = Ok train /\
    out = train ++ repeat zero (length sig - length train).
Proof.
  unfold Latency.timeToFirstSpike.
  destruct (render_train _ _ _ _) as [train|e]; cbn [bind]; [|discriminate].
  rewrite pad_to_input_spec. intros [= <-]. split.
  - rewrite length_app, repeat_length. lia.
  - exists train. split; reflexivity.
Qed.

(** C5 on a signal of 16 samples with one spike at index 9. *)
Lemma timeToFirstSpike_output_length_witness :
  let sig := (repeat 1 10 ++ repeat 0 6)%Q in
  let out := ([0; 0; 0; 0; 0] ++ demo_pulse ++ [0; 0; 0; 0; 0; 0])%Q in
  Latency.timeToFirstSpike sig demo_pulse AP_Duration 10%Q = Ok out /\
  length sig <= length out.
Proof.
  intros sig out.
  assert (Hrun : Latency.timeToFirstSpike sig demo_pulse AP_Duration 10%Q =
                 Ok out) by reflexivity.
  split; [exact Hrun|].
  apply (timeToFirstSpike_output_length sig demo_pulse AP_Duration 10%Q out Hrun).
Defined.

(** C10.  Whatever either encoder returns starts with the sample 0. *)
Theorem output_starts_with_zero {T : Type} `{SampleOps T}
        (sig singlePulse : list T) (D : Z) (thr : T) (out : list T) :
  (InterSpike.integrate_and_fire sig singlePulse D thr = Ok out ->
   exists rest, out = zero :: rest) /\
  (Latency.timeToFirstSpike sig singlePulse D thr = Ok out ->
   exists rest, out = zero :: rest).
Proof.
  split.
  - unfold InterSpike.integrate_and_fire. intros Hr.
    apply render_train_extends in Hr. exact Hr.
  - unfold Latency.timeToFirstSpike.
    destruct (render_train _ _ _ _) as [train|e] eqn:Hr; cbn [bind];
      [|discriminate].
    rewrite pad_to_input_spec. intros [= <-].
    apply render_train_extends in Hr. destruct Hr as [rest ->].
    eexists. cbn [app]. reflexivity.
Qed.

(** C10 on a signal of 16 samples with one spike at index 9. *)
Lemma output_starts_with_zero_witness :
  let sig := (repeat 1 10 ++ repeat 0 6)%Q in
  exists out rest,
    InterSpike.integrate_and_fire sig demo_pulse AP_Duration 10%Q = Ok out /\
    out = 0%Q :: rest.
Proof.
  intros sig.
  destruct (InterSpike.integrate_and_fire sig demo_pulse AP_Duration 10%Q)
    as [out|e] eqn:Hrun; [|vm_compute in Hrun; discriminate].
  destruct (proj1 (output_starts_with_zero sig demo_pulse AP_Duration 10%Q out)
                  Hrun) as [rest Hout].
  exists out, rest. split; [reflexivity | exact Hout].
Defined.

(** * The claims on the occurrence list *)

Lemma gaps_cons (p q : nat) (rest : list nat) :
  gaps (p :: q :: rest) = (Z.of_nat q - Z.of_nat p)%Z :: gaps (q :: rest).
Proof. reflexivity. Qed.

Lemma gaps_of_increasing (l : list nat) :
  StronglySorted lt l -> Forall (fun g => (0 < g)%Z) (gaps l).
Proof.
  induction l as [|p rest IH]; intros Hs; [constructor|].
  destruct rest as [|q rest']; [constructor|].
  inversion Hs as [|? ? Hrest Hall]; subst. rewrite gaps_cons.
  constructor; [|now apply IH].
  inversion Hall as [|? ? Hpq _]; subst. clear - Hpq. lia.
Qed.

(** What the threshold loops guarantee of their occurrence list,
    whatever the update of the integral. *)
Lemma occurrences_from_zero {T : Type} `{SampleOps T}
      (upd : T -> T -> T) (thr : T) (sig : list T) :
  let spikes := spikes_from upd thr 0 sig zero in
  StronglySorted lt spikes /\
  Forall (fun q => q < length sig) spikes /\
  StronglySorted le (0 :: spikes) /\
  Forall (fun g => (0 <= g)%Z) (gaps (0 :: spikes)) /\
  Forall (fun g => (0 < g)%Z) (tl (gaps (0 :: spikes))).
Proof.
  intros spikes.
  assert (Hsorted : StronglySorted lt spikes) by apply spikes_from_sorted.
  assert (Hbound : Forall (fun q => q < length sig) spikes).
  { apply Forall_forall. intros q Hq.
    apply spikes_from_bounds in Hq. lia. }
  assert (Hgaps : Forall (fun g => (0 < g)%Z) (gaps spikes))
    by now apply gaps_of_increasing.
  split; [exact Hsorted|]. split; [exact Hbound|]. split; [|split].
  - constructor.
    + clear Hbound Hgaps. induction Hsorted as [|q l Hl IH Hall]; constructor.
      * exact IH.
      * eapply Forall_impl; [|exact Hall]. intros; lia.
    + apply Forall_forall. intros; lia.
  - destruct spikes as [|q rest]; [constructor|]. rewrite gaps_cons.
    constructor; [lia|]. eapply Forall_impl; [|exact Hgaps].
    cbn beta. intros; lia.
  - destruct spikes as [|q rest]; [constructor|]. rewrite gaps_cons.
    exact Hgaps.
Qed.

(** C6, as amended.  The occurrence list of either encoder starts at
    0; the indices recorded after this leading 0 are strictly
    increasing and are indices of the signal, so the whole list never
    decreases.  No spacing by [AP_Duration] is enforced. *)
Theorem occurrences_start_at_zero_and_increase {T : Type} `{SampleOps T}
        (sig : list T) (thr : T) :
  (exists spikes,
     InterSpike.AP_Occurance sig thr = 0 :: spikes /\
     StronglySorted lt spikes /\
     Forall (fun q => q < length sig) spikes /\
     StronglySorted le (InterSpike.AP_Occurance sig thr)) /\
  (exists spikes,
     Latency.AP_Occurance sig thr = 0 :: spikes /\
     StronglySorted lt spikes /\
     Forall (fun q => q < length sig) spikes /\
     StronglySorted le (Latency.AP_Occurance sig thr)).
Proof.
  split.
  - destruct (occurrences_from_zero iaf_update thr sig) as (Hs & Hb & Hle & _).
    rewrite iaf_occurrences. eexists. repeat split; eassumption.
  - destruct (occurrences_from_zero ttfs_update thr sig) as (Hs & Hb & Hle & _).
    rewrite ttfs_occurrences. eexists. repeat split; eassumption.
Qed.

(** C6 as stated fails on two samples of 30 with threshold 30: both
    encoders record the indices 0 and 1 after the leading 0, so the
    list repeats 0 and its gaps are 0 and 1, below the duration 5. *)
Lemma occurrences_start_at_zero_and_increase_counterexample :
  let sig := [30; 30]%Q in
  let thr := 30%Q in
  InterSpike.AP_Occurance sig thr = [0; 0; 1] /\
  Latency.AP_Occurance sig thr = [0; 0; 1] /\
  ~ StronglySorted lt (InterSpike.AP_Occurance sig thr) /\
  ~ spaced_by AP_Duration (InterSpike.AP_Occurance sig thr) /\
  ~ StronglySorted lt (Latency.AP_Occurance sig thr) /\
  ~ spaced_by AP_Duration (Latency.AP_Occurance sig thr).
Proof.
  intros sig thr.
  change (InterSpike.AP_Occurance sig thr) with [0; 0; 1].
  change (Latency.AP_Occurance sig thr) with [0; 0; 1].
  assert (Hrepeat : ~ StronglySorted lt [0; 0; 1]).
  { intros Hs. inversion Hs as [|? ? _ Hall]; subst.
    inversion Hall; subst. lia. }
  assert (Hclose : ~ spaced_by AP_Duration [0; 0; 1]).
  { intros Hsp. inversion Hsp as [|g gs Hg _]. revert Hg. vm_compute.
    intros Hg. apply Hg. reflexivity. }
  repeat split; assumption.
Qed.

(** C8, as amended.  Along the occurrence list of the
    integrate-and-fire encoder no gap is negative, and every gap after
    the first is positive: it is the occurrences that never decrease,
    not the gaps. *)
Theorem integrate_and_fire_gaps_not_negative {T : Type} `{SampleOps T}
        (sig : list T) (thr : T) :
  Forall (fun g => (0 <= g)%Z) (gaps (InterSpike.AP_Occurance sig thr)) /\
  Forall (fun g => (0 < g)%Z) (tl (gaps (InterSpike.AP_Occurance sig thr))).
Proof.
  destruct (occurrences_from_zero iaf_update thr sig) as (_ & _ & _ & H0 & H1).
  rewrite iaf_occurrences. split; assumption.
Qed.

(** C8 as stated fails on a signal with a pause: the occurrences are
    0, 1, 6, 8 and the gaps 1, 5, 2. *)
Lemma integrate_and_fire_gaps_counterexample :
  let sig := [1; 1; 0; 0; 0; 1; 1; 1; 1]%Q in
  let thr := 2%Q in
  InterSpike.AP_Occurance sig thr = [0; 1; 6; 8] /\
  gaps (InterSpike.AP_Occurance sig thr) = [1; 5; 2]%Z /\
  ~ never_decreasing (gaps (InterSpike.AP_Occurance sig thr)).
Proof.
  intros sig thr. split; [reflexivity|]. split; [reflexivity|].
  intros Hmono. specialize (Hmono 1 5%Z 2%Z eq_refl eq_refl). lia.
Qed.

(** C9.  The integrate-and-fire encoder does not pad: on a signal of
    40 samples with spikes at the indices 9 and 19 it returns 20
    samples, where the gated encoder returns 40. *)
Theorem integrate_and_fire_does_not_pad :
  let sig := (repeat 3 20 ++ repeat 0 20)%Q in
  let thr := 30%Q in
  exists out padded,
    tl (InterSpike.AP_Occurance sig thr) = [9; 19] /\
    InterSpike.integrate_and_fire sig demo_pulse AP_Duration thr = Ok out /\
    length out < length sig /\
    Latency.timeToFirstSpike sig demo_pulse AP_Duration thr = Ok padded /\
    padded = out ++ repeat 0%Q (length sig - length out) /\
    length padded = length sig.
Proof.
  intros sig thr.
  exists ([0; 0; 0; 0; 0] ++ demo_pulse ++ [0; 0; 0; 0; 0] ++ demo_pulse)%Q.
  eexists. split; [reflexivity|]. split; [reflexivity|].
  split; [vm_compute; lia|]. split; [reflexivity|].
  split; reflexivity.
Qed.

(** * The pulse shaper *)

Section PulseFacts.

Context {T : Type} `{SampleOps T} `{PulseOps T}.

Lemma combine_map_same {A B C : Type} (f : A -> B) (g : A -> C) (l : list A) :
  combine (map f l) (map g l) = map (fun a => (f a, g a)) l.
Proof.
  induction l as [|a l IH]; cbn; [reflexivity | now rewrite IH].
Qed.

(** The shaper evaluates the formula at the points of its time base. *)
Lemma AP_SinglePulse_samples (D : Z) (A_pos A_neg W_pos W_neg : T) :
  (0 <= D)%Z ->
  AP_SinglePulse D A_pos A_neg W_pos W_neg =
  Ok (map (fun k => pulse_formula A_pos A_neg W_pos W_neg
                                  (linspace_point 0 D D k))
          (seq 0 (Z.to_nat D))).
Proof.
  intros HD. unfold AP_SinglePulse, np_linspace.
  destruct (Z.ltb_spec D 0); [lia|]. cbn [bind].
  rewrite combine_map_same, !map_map. reflexivity.
Qed.

Lemma AP_SinglePulse_negative (D : Z) (A_pos A_neg W_pos W_neg : T) :
  (D < 0)%Z ->
  AP_SinglePulse D A_pos A_neg W_pos W_neg = Raise ValueError.
Proof.
  intros HD. unfold AP_SinglePulse, np_linspace.
  destruct (Z.ltb_spec D 0); [reflexivity | lia].
Qed.

End PulseFacts.

(** On the reals the time base of [D] samples has the step
    [D / (D - 1)]. *)
Lemma linspace_point_real (D : Z) (k : nat) :
  k < Z.to_nat D ->
  linspace_point (T := R) 0 D D k = time_point D k.
Proof.
  intros Hk. unfold linspace_point, time_point. cbn [of_int R_pulse].
  destruct (Z.eqb_spec D 1) as [HD1 | HD1]; [reflexivity|].
  assert (Hne : IZR (D - 1) <> 0%R) by (apply not_0_IZR; lia).
  destruct (Z.eqb_spec (Z.of_nat k) (D - 1)) as [Hlast | Hmid].
  - rewrite Hlast. field. exact Hne.
  - cbn [add fmul fdiv fsub R_samples R_pulse]. field. exact Hne.
Qed.

Lemma gaussian_real (A W : R) (c : Z) (t : R) :
  gaussian A W c t = (A * exp (-0.5 * ((t - IZR c) / W) ^ 2))%R.
Proof.
  unfold gaussian. cbn [fmul fexp neg_half fdiv fsub of_int R_pulse].
  do 2 f_equal. ring.
Qed.

(** C7, as amended.  For a duration [D] that is not negative the pulse
    shaper returns exactly [D] samples, and sample [k] is
    [A_pos * exp(-0.5 * ((t - 2) / W_pos)^2) +
     A_neg * exp(-0.5 * ((t - 3) / W_neg)^2)]
    at the time [t = k * D / (D - 1)] of the time base (0 for a single
    sample), with the centres 2 and 3 whatever [D] is. *)
Theorem AP_SinglePulse_shape (D : Z) (A_pos A_neg W_pos W_neg : R) :
  (0 <= D)%Z ->
  exists pulse,
    AP_SinglePulse D A_pos A_neg W_pos W_neg = Ok pulse /\
    length pulse = Z.to_nat D /\
    forall k, k < Z.to_nat D ->
      nth_error pulse k =
      Some (A_pos * exp (-0.5 * ((time_point D k - 2) / W_pos) ^ 2) +
            A_neg * exp (-0.5 * ((time_point D k - 3) / W_neg) ^ 2))%R.
Proof.
  intros HD. rewrite AP_SinglePulse_samples by exact HD.
  eexists. split; [reflexivity|]. split.
  - now rewrite length_map, length_seq.
  - intros k Hk. rewrite nth_error_map.
    rewrite (nth_error_nth' _ 0) by now rewrite length_seq.
    rewrite seq_nth by exact Hk. cbn [option_map Nat.add].
    unfold pulse_formula. rewrite !gaussian_real.
    rewrite linspace_point_real by exact Hk. reflexivity.
Qed.

(** C7 with the constants of the scripts: five samples, the third one
    taken at time 2.5. *)
Lemma AP_SinglePulse_shape_witness :
  exists pulse,
    AP_SinglePulse AP_Duration 4%R (-0.4)%R 0.35%R 0.75%R = Ok pulse /\
    length pulse = 5 /\
    nth_error pulse 2 =
    Some (4 * exp (-0.5 * ((2.5 - 2) / 0.35) ^ 2) +
          -0.4 * exp (-0.5 * ((2.5 - 3) / 0.75) ^ 2))%R.
Proof.
  assert (HD : (0 <= AP_Duration)%Z) by (unfold AP_Duration; lia).
  destruct (AP_SinglePulse_shape AP_Duration 4%R (-0.4)%R 0.35%R 0.75%R HD)
    as (pulse & Hrun & Hlen & Hsamples).
  exists pulse. split; [exact Hrun|]. split; [exact Hlen|].
  rewrite (Hsamples 2) by (vm_compute; lia).
  replace (time_point AP_Duration 2) with 2.5%R; [reflexivity|].
  unfold time_point, AP_Duration. cbn. lra.
Defined.

Lemma exp_minus_one_below_half (a : R) : (a <= -1)%R -> (exp a < 1 / 2)%R.
Proof.
  intros Ha.
  assert (H1 : (exp a <= exp (-1))%R).
  { destruct Ha as [Hlt | ->]; [left; now apply exp_increasing | right; reflexivity]. }
  assert (H2 : (2 < exp 1)%R).
  { pose proof (exp_ineq1 1). lra. }
  assert (H3 : (exp (-1) = / exp 1)%R) by apply exp_Ropp.
  assert (H4 : (/ exp 1 < / 2)%R) by (apply Rinv_lt_contravar; lra).
  lra.
Qed.

Lemma exp_nonpos_at_most_one (a : R) : (a <= 0)%R -> (0 < exp a <= 1)%R.
Proof.
  intros Ha. split; [apply exp_pos|].
  rewrite <- exp_0.
  destruct Ha as [Hlt | ->]; [left; now apply exp_increasing | right; reflexivity].
Qed.

(** C7 as stated fails with the constants of the scripts: the third of
    the five samples is taken at time 2.5, where the formula is below
    2, and not at its position 2, where the formula is above 3.6. *)
Lemma AP_SinglePulse_shape_counterexample :
  exists pulse x,
    AP_SinglePulse AP_Duration 4%R (-0.4)%R 0.35%R 0.75%R = Ok pulse /\
    nth_error pulse 2 = Some x /\
    x <> pulse_formula 4%R (-0.4)%R 0.35%R 0.75%R (of_int 2).
Proof.
  assert (HD : (0 <= AP_Duration)%Z) by (unfold AP_Duration; lia).
  rewrite (AP_SinglePulse_samples AP_Duration _ _ _ _ HD).
  eexists. eexists. split; [reflexivity|]. split; [reflexivity|].
  unfold pulse_formula. rewrite !gaussian_real.
  assert (Ht : linspace_point (T := R) 0 AP_Duration AP_Duration 2 = 2.5%R).
  { rewrite linspace_point_real by (vm_compute; lia).
    unfold time_point, AP_Duration. cbn. lra. }
  rewrite Ht. cbn [of_int R_pulse add R_samples].
  pose proof (exp_minus_one_below_half (-0.5 * ((2.5 - 2) / 0.35) ^ 2)) as Hpos.
  pose proof (exp_pos (-0.5 * ((2.5 - 3) / 0.75) ^ 2)) as Hneg.
  pose proof (exp_nonpos_at_most_one (-0.5 * ((2 - 2) / 0.35) ^ 2)) as Hpos'.
  pose proof (exp_nonpos_at_most_one (-0.5 * ((2 - 3) / 0.75) ^ 2)) as Hneg'.
  assert (Hmid : (exp (-0.5 * ((2 - 2) / 0.35) ^ 2) = 1)%R).
  { replace (-0.5 * ((2 - 2) / 0.35) ^ 2)%R with 0%R by (unfold Rdiv; ring).
    apply exp_0. }
  assert (H1 : (-0.5 * ((2.5 - 2) / 0.35) ^ 2 <= -1)%R) by lra.
  assert (H2 : (-0.5 * ((2 - 3) / 0.75) ^ 2 <= 0)%R) by lra.
  specialize (Hpos H1). specialize (Hneg' H2).
  lra.
Qed.

(** * Further properties of the threshold loops *)

Section LoopShifts.

Context {T : Type} `{SampleOps T}.
Variable upd : T -> T -> T.
Variable thr : T.

(** The indices recorded from position [i] on are those recorded from
    position 0, moved by [i]. *)
Lemma spikes_from_shift (sig : list T) :
  forall i acc,
    spikes_from upd thr i sig acc =
    map (Nat.add i) (spikes_from upd thr 0 sig acc).
Proof.
  induction sig as [|x sig IH]; intros i acc; cbn [spikes_from map];
    [reflexivity|].
  destruct (geb (upd acc x) thr); cbn [map].
  - rewrite Nat.add_0_r. f_equal.
    rewrite (IH (S i)), (IH 1), map_map.
    apply map_ext. intros q. lia.
  - rewrite (IH (S i)), (IH 1), map_map.
    apply map_ext. intros q. lia.
Qed.

End LoopShifts.

(** X1.  Neither encoder looks ahead: the occurrence list of a signal
    that is continued by more samples starts with the occurrence list
    of the signal itself, and what follows are indices of the
    continuation. *)
Theorem encoders_do_not_look_ahead {T : Type} `{SampleOps T}
        (sig more : list T) (thr : T) :
  (exists later,
     InterSpike.AP_Occurance (sig ++ more) thr =
     InterSpike.AP_Occurance sig thr ++ later /\
     Forall (fun q => length sig <= q < length sig + length more) later) /\
  (exists later,
     Latency.AP_Occurance (sig ++ more) thr =
     Latency.AP_Occurance sig thr ++ later /\
     Forall (fun q => length sig <= q < length sig + length more) later).
Proof.
  split.
  - rewrite !iaf_occurrences, spikes_from_app. eexists.
    split; [reflexivity|]. apply Forall_forall. intros q Hq.
    apply spikes_from_bounds in Hq. lia.
  - rewrite !ttfs_occurrences, spikes_from_app. eexists.
    split; [reflexivity|]. apply Forall_forall. intros q Hq.
    apply spikes_from_bounds in Hq. lia.
Qed.

Section Tail.

Context {T : Type} `{SampleOps T}.
Variable thr : T.

Lemma iaf_last_gap (sig : list T) (k p : nat) :
  nth_error (InterSpike.AP_Occurance sig thr) k = Some p ->
  nth_error (InterSpike.AP_Occurance sig thr) (S k) = None ->
  tail_ok thr sig (gap_start k p).
Proof.
  rewrite iaf_occurrences. destruct k as [|k]; cbn [gap_start].
  - intros _ Hq.
    pose proof (iaf_head_gap thr sig 0 (Nat.le_0_l _)) as Hhead.
    change (skipn 0 sig) with sig in Hhead.
    change (nth_error (spikes_from iaf_update thr 0 sig zero) 0 = None) in Hq.
    destruct (spikes_from iaf_update thr 0 sig zero) as [|q' tl];
      [exact Hhead | discriminate].
  - intros Hp Hq.
    change (nth_error (spikes_from iaf_update thr 0 sig zero) k = Some p) in Hp.
    change (nth_error (spikes_from iaf_update thr 0 sig zero) (S k) = None)
      in Hq.
    pose proof (iaf_later_gaps thr sig k 0 p (Nat.le_0_l _)) as Hgap.
    change (skipn 0 sig) with sig in Hgap.
    specialize (Hgap Hp). now rewrite Hq in Hgap.
Qed.

End Tail.

(** X2.  After the last occurrence of the integrate-and-fire encoder no
    crossing is missed: from the index where the integral restarted, no
    accumulated sum reaches the threshold up to the end of the
    signal. *)
Theorem integrate_and_fire_no_late_crossing {T : Type} `{SampleOps T}
        (sig : list T) (thr : T) (k p : nat) :
  nth_error (InterSpike.AP_Occurance sig thr) k = Some p ->
  nth_error (InterSpike.AP_Occurance sig thr) (S k) = None ->
  forall j, gap_start k p <= j < length sig ->
            geb (accumulate (window sig (gap_start k p) j)) thr = false.
Proof.
  intros Hp Hq. exact (iaf_last_gap thr sig k p Hp Hq).
Qed.

(** X2 on the signal [10; 20; 30; 5; 5] with threshold 30: after the
    last occurrence, 2, the sums 5 and 10 stay below. *)
Lemma integrate_and_fire_no_late_crossing_witness :
  let sig := [10; 20; 30; 5; 5]%Q in
  InterSpike.AP_Occurance sig 30%Q = [0; 1; 2] /\
  geb (accumulate (window sig 3 4)) 30%Q = false.
Proof.
  intros sig. split; [reflexivity|].
  assert (Hlast : nth_error (InterSpike.AP_Occurance sig 30%Q) 2 = Some 2)
    by reflexivity.
  assert (Hend : nth_error (InterSpike.AP_Occurance sig 30%Q) 3 = None)
    by reflexivity.
  apply (integrate_and_fire_no_late_crossing sig 30%Q 2 2 Hlast Hend).
  cbn. lia.
Defined.

(** * The gated loop on silent samples *)

Section Silence.

Context {T : Type} `{SampleOps T}.
Variable thr : T.

(** A sample is silent when the test [informationSig[i] > 0] fails. *)
Let silent (x : T) : Prop := gtb x zero = false.

Lemma ttfs_silent_sample (x : T) (rest : list T) (i : nat) (acc : T) :
  silent x -> geb zero thr = false ->
  spikes_from ttfs_update thr i (x :: rest) acc =
  spikes_from ttfs_update thr (S i) rest zero.
Proof.
  intros Hx Hthr. cbn [spikes_from].
  replace (ttfs_update acc x) with (zero : T)
    by (unfold ttfs_update; now rewrite Hx).
  now rewrite Hthr.
Qed.

Lemma ttfs_silent_run (quiet sig : list T) :
  Forall silent quiet -> geb zero thr = false ->
  forall i,
    spikes_from ttfs_update thr i (quiet ++ sig) zero =
    spikes_from ttfs_update thr (i + length quiet) sig zero.
Proof.
  intros Hq Hthr. induction Hq as [|x quiet Hx _ IH]; intros i;
    cbn [app length].
  - now rewrite Nat.add_0_r.
  - rewrite (ttfs_silent_sample x _ i zero Hx Hthr), IH. f_equal. lia.
Qed.

Lemma ttfs_after_silent_sample (sig : list T) (x : T) (acc : T) :
  silent x ->
  integral_after ttfs_update thr (sig ++ [x]) acc = zero.
Proof.
  intros Hx. rewrite integral_after_snoc. unfold ttfs_update.
  unfold silent in Hx. rewrite Hx. now destruct (geb zero thr).
Qed.

(** With a threshold that 0 reaches, every silent sample is
    recorded. *)
Lemma ttfs_silent_all_recorded (quiet : list T) :
  Forall silent quiet -> geb zero thr = true ->
  forall i acc,
    spikes_from ttfs_update thr i quiet acc = seq i (length quiet).
Proof.
  intros Hq Hthr. induction Hq as [|x quiet Hx _ IH]; intros i acc;
    cbn [spikes_from length seq]; [reflexivity|].
  replace (ttfs_update acc x) with (zero : T)
    by (unfold ttfs_update; now rewrite Hx).
  now rewrite Hthr, IH.
Qed.

End Silence.

(** X3.  In the gated encoder a sample that is not strictly positive
    separates what is encoded: for a positive threshold, the spikes of
    [before ++ x :: after] are those of [before] followed by those of
    [after] alone, moved to their place. *)
Theorem timeToFirstSpike_bursts_are_independent {T : Type} `{SampleOps T}
        (before after : list T) (x : T) (thr : T) :
  geb zero thr = false -> gtb x zero = false ->
  tl (Latency.AP_Occurance (before ++ x :: after) thr) =
  tl (Latency.AP_Occurance before thr) ++
  map (Nat.add (S (length before))) (tl (Latency.AP_Occurance after thr)).
Proof.
  intros Hthr Hx. rewrite !ttfs_occurrences. cbn [tl].
  change (x :: after) with ([x] ++ after).
  rewrite app_assoc, spikes_from_app, length_app. cbn [length Nat.add].
  rewrite (ttfs_after_silent_sample thr before x zero Hx).
  rewrite spikes_from_snoc.
  replace (ttfs_update (integral_after ttfs_update thr before zero) x)
    with (zero : T) by (unfold ttfs_update; now rewrite Hx).
  rewrite Hthr, app_nil_r.
  rewrite (spikes_from_shift ttfs_update thr after (length before + 1) zero).
  f_equal. apply map_ext. intros q. lia.
Qed.

(** X3 on two bursts around one silent sample, threshold 1. *)
Lemma timeToFirstSpike_bursts_are_independent_witness :
  let before := [0.5; 0.5; 0.5]%Q in
  let after := [1; 0.25]%Q in
  tl (Latency.AP_Occurance (before ++ 0%Q :: after) 1%Q) = [1] ++ [4 + 0].
Proof.
  intros before after.
  exact (timeToFirstSpike_bursts_are_independent before after 0%Q 1%Q
           eq_refl eq_refl).
Defined.

(** X4.  Latency coding: for a positive threshold, a run of samples
    that are not strictly positive ahead of a signal moves every spike
    of the gated encoder by the length of the run and changes nothing
    else. *)
Theorem timeToFirstSpike_latency_from_onset {T : Type} `{SampleOps T}
        (quiet sig : list T) (thr : T) :
  geb zero thr = false ->
  Forall (fun x => gtb x zero = false) quiet ->
  tl (Latency.AP_Occurance (quiet ++ sig) thr) =
  map (Nat.add (length quiet)) (tl (Latency.AP_Occurance sig thr)).
Proof.
  intros Hthr Hq. rewrite !ttfs_occurrences. cbn [tl].
  rewrite (ttfs_silent_run thr quiet sig Hq Hthr 0). cbn [Nat.add].
  apply spikes_from_shift.
Qed.

(** X4 with three silent samples ahead of a burst, threshold 1. *)
Lemma timeToFirstSpike_latency_from_onset_witness :
  let quiet := [0; 0; -1]%Q in
  let sig := [0.5; 0.5; 0.5]%Q in
  tl (Latency.AP_Occurance (quiet ++ sig) 1%Q) = [3 + 1].
Proof.
  intros quiet sig.
  assert (Hq : Forall (fun x : Q => gtb x zero = false) quiet)
    by repeat constructor.
  exact (timeToFirstSpike_latency_from_onset quiet sig 1%Q eq_refl Hq).
Defined.

(** X5.  On a signal without a strictly positive sample the gated
    encoder, for a positive threshold, records nothing and returns
    zeros over the length of the input, whatever the pulse and the
    duration are. *)
Theorem timeToFirstSpike_silent_signal {T : Type} `{SampleOps T}
        (sig singlePulse : list T) (D : Z) (thr : T) :
  geb zero thr = false ->
  Forall (fun x => gtb x zero = false) sig ->
  Latency.AP_Occurance sig thr = [0] /\
  Latency.timeToFirstSpike sig singlePulse D thr =
  Ok (zero :: repeat zero (length sig - 1)).
Proof.
  intros Hthr Hq.
  assert (Hocc : Latency.AP_Occurance sig thr = [0]).
  { rewrite ttfs_occurrences. f_equal.
    rewrite <- (app_nil_r sig).
    now rewrite (ttfs_silent_run thr sig [] Hq Hthr 0). }
  split; [exact Hocc|].
  unfold Latency.timeToFirstSpike. rewrite Hocc. cbn [render_train bind].
  now rewrite pad_to_input_spec.
Qed.

(** X5 on four samples, threshold 100. *)
Lemma timeToFirstSpike_silent_signal_witness :
  Latency.timeToFirstSpike [0; -2; 0; 0]%Q demo_pulse AP_Duration 100%Q =
  Ok [0; 0; 0; 0]%Q.
Proof.
  assert (Hq : Forall (fun x : Q => gtb x zero = false) [0; -2; 0; 0]%Q)
    by repeat constructor.
  exact (proj2 (timeToFirstSpike_silent_signal
                  [0; -2; 0; 0]%Q demo_pulse AP_Duration 100%Q eq_refl Hq)).
Defined.

(** X6.  With a threshold that 0 itself reaches, the gated encoder
    records every index of a signal without a strictly positive
    sample; the occurrence list then repeats 0, and for a positive
    duration the construction of the output raises. *)
Theorem timeToFirstSpike_threshold_not_positive {T : Type} `{SampleOps T}
        (sig singlePulse : list T) (D : Z) (thr : T) :
  geb zero thr = true ->
  Forall (fun x => gtb x zero = false) sig ->
  Latency.AP_Occurance sig thr = 0 :: seq 0 (length sig) /\
  (sig <> [] -> (0 < D)%Z ->
   Latency.timeToFirstSpike sig singlePulse D thr = Raise ValueError).
Proof.
  intros Hthr Hq.
  assert (Hocc : Latency.AP_Occurance sig thr = 0 :: seq 0 (length sig)).
  { rewrite ttfs_occurrences. f_equal.
    apply (ttfs_silent_all_recorded thr sig Hq Hthr). }
  split; [exact Hocc|]. intros Hne HD.
  unfold Latency.timeToFirstSpike. rewrite Hocc.
  destruct sig as [|x rest]; [congruence|]. cbn [length seq].
  rewrite render_train_pair, np_zeros_raises by lia. reflexivity.
Qed.

(** X6 on two silent samples, threshold 0. *)
Lemma timeToFirstSpike_threshold_not_positive_witness :
  Latency.AP_Occurance [0; 0]%Q 0%Q = [0; 0; 1] /\
  Latency.timeToFirstSpike [0; 0]%Q demo_pulse AP_Duration 0%Q =
  Raise ValueError.
Proof.
  assert (Hq : Forall (fun x : Q => gtb x zero = false) [0; 0]%Q)
    by repeat constructor.
  assert (Hthr : geb (zero : Q) 0%Q = true) by reflexivity.
  destruct (timeToFirstSpike_threshold_not_positive
              [0; 0]%Q demo_pulse AP_Duration 0%Q Hthr Hq) as [Hocc Hraise].
  split; [exact Hocc|]. apply Hraise; [discriminate | reflexivity].
Defined.

(** X7.  On a signal of zeros the integrate-and-fire encoder, for a
    positive threshold, records nothing and returns the single sample
    0, provided [0 + 0] is [0] in the arithmetic of the samples. *)
Theorem integrate_and_fire_zero_signal {T : Type} `{SampleOps T}
        (n : nat) (singlePulse : list T) (D : Z) (thr : T) :
  add zero zero = zero -> geb zero thr = false ->
  InterSpike.AP_Occurance (repeat zero n) thr = [0] /\
  InterSpike.integrate_and_fire (repeat zero n) singlePulse D thr = Ok [zero].
Proof.
  intros Hadd Hthr.
  assert (Hnone : forall i, spikes_from iaf_update thr i (repeat zero n) zero = []).
  { induction n as [|m IH]; intros i; cbn [repeat spikes_from]; [reflexivity|].
    replace (iaf_update zero zero) with (zero : T) by (symmetry; exact Hadd).
    rewrite Hthr. apply IH. }
  assert (Hocc : InterSpike.AP_Occurance (repeat zero n) thr = [0])
    by now rewrite iaf_occurrences, Hnone.
  split; [exact Hocc|].
  unfold InterSpike.integrate_and_fire. now rewrite Hocc.
Qed.

(** X7 on 50 zeros with the threshold 30 of the script. *)
Lemma integrate_and_fire_zero_signal_witness :
  InterSpike.integrate_and_fire (repeat 0%Q 50) demo_pulse AP_Duration 30%Q =
  Ok [0%Q].
Proof.
  assert (Hadd : add (zero : Q) zero = zero) by reflexivity.
  assert (Hthr : geb (zero : Q) 30%Q = false) by reflexivity.
  exact (proj2 (integrate_and_fire_zero_signal 50 demo_pulse AP_Duration 30%Q
                  Hadd Hthr)).
Defined.

(** * Where the pulses are in the output *)

Lemma last_default_irrelevant {A : Type} (l : list A) :
  forall a d d', last (a :: l) d = last (a :: l) d'.
Proof.
  induction l as [|b l IH]; intros a d d'; [reflexivity|].
  change (last (b :: l) d = last (b :: l) d'). apply IH.
Qed.

Section Alignment.

Context {T : Type} `{SampleOps T}.
Variable singlePulse : list T.
Variable D : Z.
Hypothesis D_not_negative : (0 <= D)%Z.
Hypothesis pulse_length : length singlePulse = Z.to_nat D.

(** What is rendered for one gap. *)
Let segment (g : Z) : list T :=
  repeat zero (Z.to_nat (g - D)) ++ singlePulse.

Lemma segment_length (g : Z) :
  (D <= g)%Z -> length (segment g) = Z.to_nat g.
Proof.
  intros Hg. unfold segment.
  rewrite length_app, repeat_length, pulse_length. lia.
Qed.

Lemma spaced_by_decidable (occ : list nat) :
  {spaced_by D occ} + {~ spaced_by D occ}.
Proof.
  unfold spaced_by. apply Forall_dec. intros g. apply Z_le_dec.
Qed.

(** A construction that returns has met well-spaced occurrences. *)
Lemma render_train_returns (occ : list nat) (ApSig out : list T) :
  render_train singlePulse occ D ApSig = Ok out ->
  spaced_by D occ /\ out = ApSig ++ flat_map segment (gaps occ).
Proof.
  intros Hr. destruct (spaced_by_decidable occ) as [Hsp | Hshort].
  - split; [exact Hsp|].
    rewrite (render_train_spaced singlePulse D occ D_not_negative Hsp) in Hr.
    now injection Hr as <-.
  - rewrite (render_train_short_gap singlePulse D occ D_not_negative Hshort)
      in Hr. discriminate.
Qed.

(** The rendered segments take the signal from the first to the last
    occurrence. *)
Lemma segments_length (occ : list nat) :
  forall p, hd_error occ = Some p -> spaced_by D occ ->
            p <= last occ p /\
            length (flat_map segment (gaps occ)) = last occ p - p.
Proof.
  unfold spaced_by.
  induction occ as [|p' rest IH]; intros p Hp Hsp; [discriminate|].
  injection Hp as ->. destruct rest as [|q rest'].
  - cbn. split; lia.
  - rewrite gaps_cons in Hsp |- *. inversion Hsp as [|g gs Hg Hrest]; subst.
    cbn [flat_map]. rewrite length_app, segment_length by exact Hg.
    destruct (IH q eq_refl Hrest) as [Hle Hlen]. rewrite Hlen.
    change (last (p :: q :: rest') p) with (last (q :: rest') p).
    rewrite (last_default_irrelevant rest' q p q).
    split; lia.
Qed.

(** Each pulse ends at the index of its occurrence, and the samples
    between the earlier occurrence and the pulse are zeros; [ApSig] is
    the output up to the first occurrence, [suffix] whatever follows
    the train. *)
Lemma segments_aligned (suffix : list T) (occ : list nat) :
  forall (ApSig : list T) (p0 : nat),
    hd_error occ = Some p0 -> length ApSig = S p0 -> spaced_by D occ ->
    forall k p q,
      nth_error occ k = Some p -> nth_error occ (S k) = Some q ->
      let out := ApSig ++ flat_map segment (gaps occ) ++ suffix in
      firstn (length singlePulse) (skipn (S q - length singlePulse) out) =
      singlePulse /\
      (forall j, S p <= j < S q - length singlePulse ->
                 nth_error out j = Some zero).
Proof.
  unfold spaced_by.
  induction occ as [|p' rest IH]; intros ApSig p0 Hp0 HA Hsp k p q Hp Hq;
    [discriminate|].
  injection Hp0 as ->. destruct rest as [|q' rest'].
  { destruct k; discriminate. }
  rewrite gaps_cons in Hsp |- *. inversion Hsp as [|g gs Hg Hrest]; subst.
  cbn [flat_map]. destruct k as [|k].
  - injection Hp as ->. injection Hq as ->. cbn zeta. unfold segment at 1 3.
    rewrite <- !app_assoc.
    set (zeros := repeat zero (Z.to_nat (Z.of_nat q - Z.of_nat p - D))).
    set (later := flat_map segment (gaps (q :: rest')) ++ suffix).
    assert (Hz : length zeros = Z.to_nat (Z.of_nat q - Z.of_nat p - D))
      by apply repeat_length.
    split.
    + rewrite (app_assoc ApSig zeros).
      rewrite skipn_app, skipn_all2, length_app by (rewrite length_app; lia).
      replace (S q - length singlePulse - (length ApSig + length zeros))
        with 0 by lia.
      cbn [skipn app]. rewrite firstn_app, firstn_all, Nat.sub_diag.
      cbn [firstn]. apply app_nil_r.
    + intros j Hj. rewrite nth_error_app2 by lia.
      rewrite nth_error_app1 by lia.
      apply nth_error_repeat. lia.
  - change (nth_error (q' :: rest') k = Some p) in Hp.
    change (nth_error (q' :: rest') (S k) = Some q) in Hq.
    assert (Hlen : length (ApSig ++ segment (Z.of_nat q' - Z.of_nat p0)%Z) =
                   S q')
      by (rewrite length_app, segment_length by exact Hg; lia).
    pose proof (IH _ q' eq_refl Hlen Hrest k p q Hp Hq) as Hrec.
    cbn zeta in Hrec |- *. rewrite <- !app_assoc in Hrec |- *. exact Hrec.
Qed.

End Alignment.

Lemma last_satisfies {A : Type} (P : A -> Prop) (l : list A) (d : A) :
  Forall P l -> P d -> P (last l d).
Proof.
  intros Hl Hd. induction Hl as [|a l Ha _ IH]; [exact Hd|].
  destruct l as [|b l']; [exact Ha | exact IH].
Qed.

(** The last occurrence is the leading 0 or an index of the signal. *)
Lemma last_occurrence_bound {T : Type} `{SampleOps T}
      (upd : T -> T -> T) (thr : T) (sig : list T) :
  S (last (0 :: spikes_from upd thr 0 sig zero) 0) <= Nat.max 1 (length sig).
Proof.
  destruct (spikes_from upd thr 0 sig zero) as [|q tl] eqn:Hsp; [cbn [last]; lia|].
  rewrite (last_default_irrelevant (q :: tl) 0 0 q).
  change (last (0 :: q :: tl) q) with (last (q :: tl) q).
  assert (Hb : Forall (fun i => i < length sig) (q :: tl)).
  { rewrite <- Hsp. apply Forall_forall. intros i Hi.
    apply spikes_from_bounds in Hi. lia. }
  pose proof (last_satisfies (fun i => i < length sig) (q :: tl) q Hb
                             (Forall_inv Hb)) as Hlast.
  cbn beta in Hlast. lia.
Qed.

Lemma iaf_output_aligned {T : Type} `{SampleOps T}
        (sig singlePulse : list T) (D : Z) (thr : T) (out : list T) :
  (0 <= D)%Z -> length singlePulse = Z.to_nat D ->
  InterSpike.integrate_and_fire sig singlePulse D thr = Ok out ->
  length out = S (last (InterSpike.AP_Occurance sig thr) 0) /\
  length out <= Nat.max 1 (length sig) /\
  forall k p q,
    nth_error (InterSpike.AP_Occurance sig thr) k = Some p ->
    nth_error (InterSpike.AP_Occurance sig thr) (S k) = Some q ->
    firstn (length singlePulse) (skipn (S q - length singlePulse) out) =
    singlePulse /\
    (forall j, S p <= j < S q - length singlePulse ->
               nth_error out j = Some zero).
Proof.
  intros HD Hlen Hrun. unfold InterSpike.integrate_and_fire in Hrun.
  destruct (render_train_returns singlePulse D HD _ _ _ Hrun) as [Hsp ->].
  assert (Hhd : hd_error (InterSpike.AP_Occurance sig thr) = Some 0)
    by now rewrite iaf_occurrences.
  destruct (segments_length singlePulse D HD Hlen _ 0 Hhd Hsp) as [_ Hseg].
  assert (Hout : length ([zero] ++ flat_map
                    (fun g => repeat zero (Z.to_nat (g - D)) ++ singlePulse)
                    (gaps (InterSpike.AP_Occurance sig thr))) =
                 S (last (InterSpike.AP_Occurance sig thr) 0))
    by (rewrite length_app, Hseg; cbn [length]; lia).
  split; [exact Hout|]. split.
  - rewrite Hout, iaf_occurrences. apply last_occurrence_bound.
  - intros k p q Hp Hq.
    pose proof (segments_aligned singlePulse D HD Hlen [] _ [zero] 0 Hhd eq_refl
                                 Hsp k p q Hp Hq) as Hal.
    cbn zeta in Hal. rewrite app_nil_r in Hal. exact Hal.
Qed.

(** X8.  With a pulse of [AP_Duration] samples, whatever
    [integrate_and_fire] returns is on the time base of the input:
    each pulse ends at the index of its occurrence, the samples
    between the earlier occurrence and the pulse are 0, and the output
    ends with the pulse of the last occurrence, so it is never longer
    than the input (one sample for an empty input). *)
Theorem integrate_and_fire_pulses_end_at_spikes {T : Type} `{SampleOps T}
        (sig singlePulse : list T) (D : Z) (thr : T) (out : list T) :
  (0 <= D)%Z -> length singlePulse = Z.to_nat D ->
  InterSpike.integrate_and_fire sig singlePulse D thr = Ok out ->
  length out = S (last (InterSpike.AP_Occurance sig thr) 0) /\
  length out <= Nat.max 1 (length sig) /\
  forall k p q,
    nth_error (InterSpike.AP_Occurance sig thr) k = Some p ->
    nth_error (InterSpike.AP_Occurance sig thr) (S k) = Some q ->
    firstn (length singlePulse) (skipn (S q - length singlePulse) out) =
    singlePulse /\
    (forall j, S p <= j < S q - length singlePulse ->
               nth_error out j = Some zero).
Proof.
  exact (iaf_output_aligned sig singlePulse D thr out).
Qed.

(** X8 on 20 samples of 3 and 20 zeros, threshold 30: the occurrences
    are 0, 9, 19, and the samples 15 to 19 of the output are the
    pulse. *)
Lemma integrate_and_fire_pulses_end_at_spikes_witness :
  let sig := (repeat 3 20 ++ repeat 0 20)%Q in
  exists out,
    InterSpike.integrate_and_fire sig demo_pulse AP_Duration 30%Q = Ok out /\
    length out = 20 /\
    firstn 5 (skipn 15 out) = demo_pulse.
Proof.
  intros sig.
  destruct (InterSpike.integrate_and_fire sig demo_pulse AP_Duration 30%Q)
    as [out|e] eqn:Hrun; [|vm_compute in Hrun; discriminate].
  assert (HD : (0 <= AP_Duration)%Z) by (unfold AP_Duration; lia).
  assert (Hlen : length demo_pulse = Z.to_nat AP_Duration) by reflexivity.
  destruct (integrate_and_fire_pulses_end_at_spikes
              sig demo_pulse AP_Duration 30%Q out HD Hlen Hrun)
    as (Hout & _ & Hpulses).
  assert (H1 : nth_error (InterSpike.AP_Occurance sig 30%Q) 1 = Some 9)
    by reflexivity.
  assert (H2 : nth_error (InterSpike.AP_Occurance sig 30%Q) 2 = Some 19)
    by reflexivity.
  exists out. split; [reflexivity|]. split; [exact Hout|].
  exact (proj1 (Hpulses 1 9 19 H1 H2)).
Defined.

Lemma ttfs_output_aligned {T : Type} `{SampleOps T}
        (sig singlePulse : list T) (D : Z) (thr : T) (out : list T) :
  (0 <= D)%Z -> length singlePulse = Z.to_nat D ->
  Latency.timeToFirstSpike sig singlePulse D thr = Ok out ->
  length out = Nat.max 1 (length sig) /\
  (forall k p q,
     nth_error (Latency.AP_Occurance sig thr) k = Some p ->
     nth_error (Latency.AP_Occurance sig thr) (S k) = Some q ->
     firstn (length singlePulse) (skipn (S q - length singlePulse) out) =
     singlePulse /\
     (forall j, S p <= j < S q - length singlePulse ->
                nth_error out j = Some zero)) /\
  (forall j, last (Latency.AP_Occurance sig thr) 0 < j < length out ->
             nth_error out j = Some zero).
Proof.
  intros HD Hlen Hrun. unfold Latency.timeToFirstSpike in Hrun.
  destruct (render_train _ _ _ _) as [train|e] eqn:Htrain; cbn [bind] in Hrun;
    [|discriminate].
  rewrite pad_to_input_spec in Hrun. injection Hrun as <-.
  destruct (render_train_returns singlePulse D HD _ _ _ Htrain) as [Hsp ->].
  assert (Hhd : hd_error (Latency.AP_Occurance sig thr) = Some 0)
    by now rewrite ttfs_occurrences.
  destruct (segments_length singlePulse D HD Hlen _ 0 Hhd Hsp) as [_ Hseg].
  set (segments := flat_map
         (fun g => repeat zero (Z.to_nat (g - D)) ++ singlePulse)
         (gaps (Latency.AP_Occurance sig thr))) in *.
  assert (Htr : length ([zero] ++ segments) =
                S (last (Latency.AP_Occurance sig thr) 0))
    by (rewrite length_app, Hseg; cbn [length]; lia).
  pose proof (last_occurrence_bound ttfs_update thr sig) as Hbound.
  rewrite <- ttfs_occurrences in Hbound.
  split; [|split].
  - rewrite length_app, repeat_length, Htr. lia.
  - intros k p q Hp Hq. rewrite <- app_assoc.
    exact (segments_aligned singlePulse D HD Hlen _ _ [zero] 0 Hhd eq_refl
                            Hsp k p q Hp Hq).
  - intros j Hj. rewrite length_app, repeat_length, Htr in Hj.
    rewrite nth_error_app2 by (rewrite Htr; lia).
    apply nth_error_repeat. rewrite Htr. lia.
Qed.

(** X9.  With a pulse of [AP_Duration] samples, whatever
    [timeToFirstSpike] returns has exactly the length of the input
    (one sample for an empty input): each pulse ends at the index of
    its occurrence, the samples between the earlier occurrence and the
    pulse are 0, and so are all samples after the last occurrence. *)
Theorem timeToFirstSpike_output_on_time_base {T : Type} `{SampleOps T}
        (sig singlePulse : list T) (D : Z) (thr : T) (out : list T) :
  (0 <= D)%Z -> length singlePulse = Z.to_nat D ->
  Latency.timeToFirstSpike sig singlePulse D thr = Ok out ->
  length out = Nat.max 1 (length sig) /\
  (forall k p q,
     nth_error (Latency.AP_Occurance sig thr) k = Some p ->
     nth_error (Latency.AP_Occurance sig thr) (S k) = Some q ->
     firstn (length singlePulse) (skipn (S q - length singlePulse) out) =
     singlePulse /\
     (forall j, S p <= j < S q - length singlePulse ->
                nth_error out j = Some zero)) /\
  (forall j, last (Latency.AP_Occurance sig thr) 0 < j < length out ->
             nth_error out j = Some zero).
Proof.
  exact (ttfs_output_aligned sig singlePulse D thr out).
Qed.

(** X9 on 20 samples of 3 and 20 zeros, threshold 30. *)
Lemma timeToFirstSpike_output_on_time_base_witness :
  let sig := (repeat 3 20 ++ repeat 0 20)%Q in
  exists out,
    Latency.timeToFirstSpike sig demo_pulse AP_Duration 30%Q = Ok out /\
    length out = 40 /\
    nth_error out 25 = Some 0%Q.
Proof.
  intros sig.
  destruct (Latency.timeToFirstSpike sig demo_pulse AP_Duration 30%Q)
    as [out|e] eqn:Hrun; [|vm_compute in Hrun; discriminate].
  assert (HD : (0 <= AP_Duration)%Z) by (unfold AP_Duration; lia).
  assert (Hlen : length demo_pulse = Z.to_nat AP_Duration) by reflexivity.
  destruct (timeToFirstSpike_output_on_time_base
              sig demo_pulse AP_Duration 30%Q out HD Hlen Hrun)
    as (Hout & _ & Hquiet).
  exists out. split; [reflexivity|]. split; [exact Hout|].
  apply Hquiet. rewrite Hout.
  change (last (Latency.AP_Occurance sig 30%Q) 0) with 19.
  cbn. lia.
Defined.

(** * A negative duration *)

Lemma render_train_negative_duration {T : Type} `{SampleOps T}
      (singlePulse : list T) (D : Z) (occ : list nat) (ApSig : list T) :
  (D < 0)%Z -> Forall (fun g => (0 <= g)%Z) (gaps occ) ->
  render_train singlePulse occ D ApSig =
  Ok (ApSig ++ render_negative singlePulse D occ).
Proof.
  intros HD Hgaps. unfold render_negative.
  destruct occ as [|p [|q rest]]; try (cbn; now rewrite app_nil_r).
  rewrite gaps_cons in Hgaps |- *. inversion Hgaps as [|g gs Hg Hrest]; subst.
  rewrite render_train_pair, np_zeros_ok by lia. cbn [bind].
  destruct (Z.ltb_spec D 0) as [_|]; [|lia].
  rewrite (render_train_spaced singlePulse 0 (q :: rest)) by
      (try lia; exact Hrest).
  rewrite <- !app_assoc. do 4 f_equal.
  apply flat_map_ext. intros g'. now rewrite Z.sub_0_r.
Qed.

(** X10.  A negative duration never makes the encoders raise: the
    count of zeros of the first gap is widened by the duration, the
    guard [if AP_Duration < 0] then sets the duration to 0, and every
    later gap gets as many zeros as it is long. *)
Theorem negative_duration_is_reset_to_zero {T : Type} `{SampleOps T}
        (sig singlePulse : list T) (D : Z) (thr : T) :
  (D < 0)%Z ->
  InterSpike.integrate_and_fire sig singlePulse D thr =
  Ok ([zero] ++ render_negative singlePulse D (InterSpike.AP_Occurance sig thr))
  /\
  Latency.timeToFirstSpike sig singlePulse D thr =
  Ok (let train :=
        [zero] ++ render_negative singlePulse D (Latency.AP_Occurance sig thr) in
      train ++ repeat zero (length sig - length train)).
Proof.
  intros HD. split.
  - unfold InterSpike.integrate_and_fire.
    apply render_train_negative_duration; [exact HD|].
    rewrite iaf_occurrences.
    apply (occurrences_from_zero iaf_update thr sig).
  - unfold Latency.timeToFirstSpike.
    rewrite render_train_negative_duration; [|exact HD|].
    + cbn [bind]. apply pad_to_input_spec.
    + rewrite ttfs_occurrences.
      apply (occurrences_from_zero ttfs_update thr sig).
Qed.

(** X10 with the duration -2 on four samples of 1, threshold 2: the
    occurrences are 0, 1, 3, and the pulse [7] follows 3 zeros, then 2
    zeros. *)
Lemma negative_duration_is_reset_to_zero_witness :
  InterSpike.integrate_and_fire [1; 1; 1; 1]%Q [7%Q] (-2)%Z 2%Q =
  Ok [0; 0; 0; 0; 7; 0; 0; 7]%Q.
Proof.
  assert (HD : (-2 < 0)%Z) by lia.
  exact (proj1 (negative_duration_is_reset_to_zero
                  [1; 1; 1; 1]%Q [7%Q] (-2)%Z 2%Q HD)).
Defined.

(** * Samples that are bounded keep the spikes apart *)

Section Spacing.

Context {T : Type} `{SampleOps T}.
Variable upd : T -> T -> T.
Variable thr : T.

(** [below v n]: the value [v] is at most the number [n]; [small x]:
    the sample [x] is at most 1; [N]: a number the threshold is above
    of, in that a value that reaches the threshold and is at most [n]
    shows [N <= n]. *)
Variable below : T -> nat -> Prop.
Variable small : T -> Prop.
Variable N : nat.
Hypothesis below_zero : below zero 0.
Hypothesis upd_below :
  forall a x n, below a n -> small x ->
                exists m, m <= S n /\ below (upd a x) m.
Hypothesis thr_reach :
  forall v n, geb v thr = true -> below v n -> N <= n.

Lemma spikes_spaced (sig : list T) :
  forall i acc m,
    below acc m -> Forall small sig ->
    (forall q, hd_error (spikes_from upd thr i sig acc) = Some q ->
               i <= q /\ N <= m + (q - i) + 1) /\
    Forall (fun g => (Z.of_nat N <= g)%Z) (gaps (spikes_from upd thr i sig acc)).
Proof.
  induction sig as [|x sig IH]; intros i acc m Hacc Hsmall;
    cbn [spikes_from].
  - split; [discriminate | constructor].
  - inversion Hsmall as [|? ? Hx Hrest]; subst.
    destruct (upd_below acc x m Hacc Hx) as (m' & Hm' & Hv).
    destruct (geb (upd acc x) thr) eqn:Hge.
    + destruct (IH (S i) zero 0 below_zero Hrest) as [Hhead Hgaps].
      split.
      * intros q [= <-]. pose proof (thr_reach _ _ Hge Hv). lia.
      * destruct (spikes_from upd thr (S i) sig zero) as [|q' tl];
          [constructor|].
        rewrite gaps_cons. constructor; [|exact Hgaps].
        destruct (Hhead q' eq_refl). lia.
    + destruct (IH (S i) (upd acc x) m' Hv Hrest) as [Hhead Hgaps].
      split; [|exact Hgaps].
      intros q Hq. destruct (Hhead q Hq). lia.
Qed.

Lemma occurrences_spaced (sig : list T) :
  Forall small sig ->
  let occ := 0 :: spikes_from upd thr 0 sig zero in
  Forall (fun g => (Z.of_nat N - 1 <= g)%Z) (gaps occ) /\
  Forall (fun g => (Z.of_nat N <= g)%Z) (tl (gaps occ)).
Proof.
  intros Hsmall occ. subst occ.
  destruct (spikes_spaced sig 0 zero 0 below_zero Hsmall) as [Hhead Hgaps].
  destruct (spikes_from upd thr 0 sig zero) as [|q more].
  - split; constructor.
  - rewrite gaps_cons. cbn [tl]. split; [|exact Hgaps].
    constructor.
    + destruct (Hhead q eq_refl). lia.
    + eapply Forall_impl; [|exact Hgaps]. cbn beta. intros; lia.
Qed.

End Spacing.

(** The laws of the section above on the reals. *)
Section RealSamples.

Variable thr : R.
Variable N : nat.
Hypothesis thr_above : (INR N - 1 < thr)%R.

Let below (v : R) (n : nat) : Prop := (v <= INR n)%R.
Let small (x : R) : Prop := (x <= 1)%R.

Lemma real_below_zero : below zero 0.
Proof. unfold below. cbn. lra. Qed.

Lemma real_thr_reach (v : R) (n : nat) :
  geb v thr = true -> below v n -> N <= n.
Proof.
  unfold below. cbn [geb R_samples].
  destruct (Rle_dec thr v) as [Hle|]; [|discriminate]. intros _ Hv.
  assert (Hlt : (INR N < INR (S n))%R) by (rewrite S_INR; lra).
  apply INR_lt in Hlt. lia.
Qed.

Lemma real_iaf_below (a x : R) (n : nat) :
  below a n -> small x -> exists m, m <= S n /\ below (iaf_update a x) m.
Proof.
  unfold below, small, iaf_update. cbn [add R_samples]. intros Ha Hx.
  exists (S n). split; [lia|]. rewrite S_INR. lra.
Qed.

Lemma real_ttfs_below (a x : R) (n : nat) :
  below a n -> small x -> exists m, m <= S n /\ below (ttfs_update a x) m.
Proof.
  unfold below, small, ttfs_update. cbn [add gtb zero R_samples].
  intros Ha Hx. destruct (Rlt_dec 0 x).
  - exists (S n). split; [lia|]. rewrite S_INR. lra.
  - exists 0. split; [lia|]. cbn. lra.
Qed.

Lemma real_occurrences_spaced (sig : list R) :
  Forall (fun x => (x <= 1)%R) sig ->
  (Forall (fun g => (Z.of_nat N - 1 <= g)%Z)
          (gaps (InterSpike.AP_Occurance sig thr)) /\
   Forall (fun g => (Z.of_nat N <= g)%Z)
          (tl (gaps (InterSpike.AP_Occurance sig thr)))) /\
  (Forall (fun g => (Z.of_nat N - 1 <= g)%Z)
          (gaps (Latency.AP_Occurance sig thr)) /\
   Forall (fun g => (Z.of_nat N <= g)%Z)
          (tl (gaps (Latency.AP_Occurance sig thr)))).
Proof.
  intros Hsmall. rewrite iaf_occurrences, ttfs_occurrences. split.
  - exact (occurrences_spaced iaf_update thr below small N real_below_zero
             real_iaf_below real_thr_reach sig Hsmall).
  - exact (occurrences_spaced ttfs_update thr below small N real_below_zero
             real_ttfs_below real_thr_reach sig Hsmall).
Qed.

End RealSamples.

Lemma real_bounded_samples
        (sig singlePulse : list R) (D : Z) (thr : R) (N : nat) :
  Forall (fun x => (x <= 1)%R) sig -> (INR N - 1 < thr)%R ->
  (Forall (fun g => (Z.of_nat N - 1 <= g)%Z)
          (gaps (InterSpike.AP_Occurance sig thr)) /\
   Forall (fun g => (Z.of_nat N <= g)%Z)
          (tl (gaps (InterSpike.AP_Occurance sig thr)))) /\
  (Forall (fun g => (Z.of_nat N - 1 <= g)%Z)
          (gaps (Latency.AP_Occurance sig thr)) /\
   Forall (fun g => (Z.of_nat N <= g)%Z)
          (tl (gaps (Latency.AP_Occurance sig thr)))) /\
  ((0 <= D <= Z.of_nat N - 1)%Z ->
   (exists out, InterSpike.integrate_and_fire sig singlePulse D thr = Ok out) /\
   (exists out, Latency.timeToFirstSpike sig singlePulse D thr = Ok out)).
Proof.
  intros Hsmall Hthr.
  destruct (real_occurrences_spaced thr N Hthr sig Hsmall) as [Hiaf Httfs].
  split; [exact Hiaf|]. split; [exact Httfs|]. intros HD.
  assert (Hsp1 : spaced_by D (InterSpike.AP_Occurance sig thr)).
  { eapply Forall_impl; [|exact (proj1 Hiaf)]. cbn beta. intros; lia. }
  assert (Hsp2 : spaced_by D (Latency.AP_Occurance sig thr)).
  { eapply Forall_impl; [|exact (proj1 Httfs)]. cbn beta. intros; lia. }
  split.
  - unfold InterSpike.integrate_and_fire.
    rewrite (render_train_spaced singlePulse D _ (proj1 HD) Hsp1).
    eexists. reflexivity.
  - unfold Latency.timeToFirstSpike.
    rewrite (render_train_spaced singlePulse D _ (proj1 HD) Hsp2).
    cbn [bind]. rewrite pad_to_input_spec. eexists. reflexivity.
Qed.

(** X11.  On real samples that are at most 1, a threshold above
    [N - 1] keeps the occurrences of both encoders apart: the first
    spike is at index [N - 1] or later, and every later gap is at
    least [N]; so for a duration from 0 to [N - 1] neither encoder
    raises. *)
Theorem bounded_samples_keep_spikes_apart
        (sig singlePulse : list R) (D : Z) (thr : R) (N : nat) :
  Forall (fun x => (x <= 1)%R) sig -> (INR N - 1 < thr)%R ->
  (Forall (fun g => (Z.of_nat N - 1 <= g)%Z)
          (gaps (InterSpike.AP_Occurance sig thr)) /\
   Forall (fun g => (Z.of_nat N <= g)%Z)
          (tl (gaps (InterSpike.AP_Occurance sig thr)))) /\
  (Forall (fun g => (Z.of_nat N - 1 <= g)%Z)
          (gaps (Latency.AP_Occurance sig thr)) /\
   Forall (fun g => (Z.of_nat N <= g)%Z)
          (tl (gaps (Latency.AP_Occurance sig thr)))) /\
  ((0 <= D <= Z.of_nat N - 1)%Z ->
   (exists out, InterSpike.integrate_and_fire sig singlePulse D thr = Ok out) /\
   (exists out, Latency.timeToFirstSpike sig singlePulse D thr = Ok out)).
Proof.
  exact (real_bounded_samples sig singlePulse D thr N).
Qed.

(** X11 on four samples with a threshold of 2.5, above [3 - 1]. *)
Lemma bounded_samples_keep_spikes_apart_witness :
  let sig := [1; 0.5; 1; 1]%R in
  exists out,
    InterSpike.integrate_and_fire sig [4; -1]%R 2%Z 2.5%R = Ok out.
Proof.
  intros sig.
  assert (Hsmall : Forall (fun x => (x <= 1)%R) sig)
    by (repeat constructor; lra).
  assert (Hthr : (INR 3 - 1 < 2.5)%R) by (cbn; lra).
  assert (HD : (0 <= 2 <= Z.of_nat 3 - 1)%Z) by (cbn; lia).
  exact (proj1 (proj2 (proj2 (bounded_samples_keep_spikes_apart
                                sig [4; -1]%R 2%Z 2.5%R 3 Hsmall Hthr)) HD)).
Defined.

(** * The sinusoidal signal and the run of the inter-spike script *)

Lemma np_linspace_ok {T : Type} `{SampleOps T} `{PulseOps T}
      (start stop num : Z) :
  (0 <= num)%Z ->
  np_linspace start stop num =
  Ok (map (linspace_point start stop num) (seq 0 (Z.to_nat num))).
Proof.
  intros Hnum. unfold np_linspace.
  destruct (Z.ltb_spec num 0); [lia | reflexivity].
Qed.

(** [np.linspace(0, n - 1, n)] counts the samples: its step is 1. *)
Lemma index_time_base_point (n k : nat) :
  k < n ->
  linspace_point (T := R) 0 (Z.of_nat n - 1) (Z.of_nat n) k = INR k.
Proof.
  intros Hk. unfold linspace_point. cbn [of_int R_pulse].
  rewrite INR_IZR_INZ.
  destruct (Z.eqb_spec (Z.of_nat n) 1) as [H1 | H1].
  - replace k with 0 by lia. reflexivity.
  - destruct (Z.eqb_spec (Z.of_nat k) (Z.of_nat n - 1)) as [Hlast | Hmid].
    + now rewrite Hlast.
    + cbn [add fmul fdiv fsub R_samples R_pulse].
      assert (Hne : IZR (Z.of_nat n - 1) <> 0%R) by (apply not_0_IZR; lia).
      field. exact Hne.
Qed.

Lemma index_time_base (n : nat) :
  exists tb,
    np_linspace (T := R) 0 (Z.of_nat n - 1) (Z.of_nat n) = Ok tb /\
    length tb = n /\
    forall k, k < n -> nth_error tb k = Some (INR k).
Proof.
  rewrite np_linspace_ok by lia. eexists. split; [reflexivity|].
  rewrite length_map, length_seq, Nat2Z.id. split; [reflexivity|].
  intros k Hk. rewrite nth_error_map.
  rewrite (nth_error_nth' _ 0) by (rewrite length_seq; exact Hk).
  rewrite seq_nth by exact Hk. cbn [option_map Nat.add].
  now rewrite index_time_base_point.
Qed.

Lemma shift_left_samples (tb : list R) (i speed : Z) (n : nat) :
  length tb = n ->
  (forall k, k < n -> nth_error tb k = Some (INR k)) ->
  length (shift_left tb i speed) = n /\
  forall k, k < n ->
            nth_error (shift_left tb i speed) k =
            Some (INR k - IZR (i * speed))%R.
Proof.
  intros Hlen Htb. unfold shift_left. rewrite length_map.
  split; [exact Hlen|]. intros k Hk.
  now rewrite nth_error_map, (Htb k Hk).
Qed.

Lemma sine_signal_range (t : list R) (F : R) :
  length (InterSpikeDemo.information_signal t F) = length t /\
  Forall (fun x => (0 <= x <= 1)%R) (InterSpikeDemo.information_signal t F).
Proof.
  unfold InterSpikeDemo.information_signal. split; [apply length_map|].
  apply Forall_map, Forall_forall. intros tk _.
  cbn [add fmul fsin fdiv of_int half np_pi R_samples R_pulse R_signal].
  pose proof (SIN_bound (2 * PI * F * tk / 1000)) as Hsin. lra.
Qed.

(** X12.  The sinusoidal information signal has one sample for each
    sample of the time base, every one between 0 and 1, whatever the
    frequency is. *)
Theorem sine_information_signal_range (t : list R) (F : R) :
  length (InterSpikeDemo.information_signal t F) = length t /\
  Forall (fun x => (0 <= x <= 1)%R) (InterSpikeDemo.information_signal t F).
Proof.
  exact (sine_signal_range t F).
Qed.



Lemma demo_pulse_shape :
  exists pulse,
    AP_SinglePulse (T := R) AP_Duration 4%R (-0.4)%R 0.35%R 0.75%R = Ok pulse /\
    length pulse = Z.to_nat AP_Duration.
Proof.
  assert (HD : (0 <= AP_Duration)%Z) by (unfold AP_Duration; lia).
  rewrite (AP_SinglePulse_samples AP_Duration _ _ _ _ HD).
  eexists. split; [reflexivity|]. now rewrite length_map, length_seq.
Qed.

(** X14.  The inter-spike script runs through: its signal has 20001
    samples, the encoder returns a spike train that is not longer and
    whose first spike is at index 29 or later, and in every frame
    [animate] hands each line a time base as long as its curve, where
    sample [k] is at the time [k - 4 * i]. *)
Theorem inter_spike_script_runs :
  exists sig stream,
    InterSpikeDemo.informationSig = Ok sig /\
    InterSpikeDemo.AP_Stream = Ok stream /\
    length sig = Z.to_nat 20001 /\
    length stream <= length sig /\
    Forall (fun g => (29 <= g)%Z)
           (gaps (InterSpike.AP_Occurance sig InterSpikeDemo.AP_threshold)) /\
    forall i,
    exists t_sinUpdate t_updated,
      InterSpikeDemo.animate i =
      Ok ((t_sinUpdate, sig), (t_updated, stream)) /\
      length t_sinUpdate = length sig /\
      length t_updated = length stream /\
      (forall k, k < length sig ->
                 nth_error t_sinUpdate k = Some (INR k - IZR (i * 4))%R) /\
      (forall k, k < length stream ->
                 nth_error t_updated k = Some (INR k - IZR (i * 4))%R).
Proof.
  assert (Htb0 : exists tb0,
             InterSpikeDemo.timeBase_0 = Ok tb0 /\
             length tb0 = Z.to_nat 20001).
  { unfold InterSpikeDemo.timeBase_0. rewrite np_linspace_ok by lia.
    eexists. split; [reflexivity|]. now rewrite length_map, length_seq. }
  destruct Htb0 as (tb0 & Htb0 & Hlen0).
  set (sig := InterSpikeDemo.information_signal
                tb0 InterSpikeDemo.sineFrequency).
  assert (Hsig : InterSpikeDemo.informationSig = Ok sig)
    by (unfold InterSpikeDemo.informationSig; now rewrite Htb0).
  destruct (sine_signal_range
              tb0 InterSpikeDemo.sineFrequency) as [Hlen Hrange].
  fold sig in Hlen, Hrange.
  assert (Hsmall : Forall (fun x => (x <= 1)%R) sig).
  { eapply Forall_impl; [|exact Hrange]. cbn beta. intros; lra. }
  destruct demo_pulse_shape as (pulse & Hpulse & Hplen).
  assert (Hthr : (INR 30 - 1 < InterSpikeDemo.AP_threshold)%R).
  { unfold InterSpikeDemo.AP_threshold.
    rewrite INR_IZR_INZ. cbn [Z.of_nat Pos.of_succ_nat Pos.succ]. lra. }
  destruct (real_bounded_samples sig pulse AP_Duration
              InterSpikeDemo.AP_threshold 30 Hsmall Hthr)
    as ((Hgaps & _) & _ & Hruns).
  assert (HD : (0 <= AP_Duration <= Z.of_nat 30 - 1)%Z)
    by (unfold AP_Duration; lia).
  destruct (proj1 (Hruns HD)) as [stream Hrun].
  assert (Hstream : InterSpikeDemo.AP_Stream = Ok stream).
  { unfold InterSpikeDemo.AP_Stream. rewrite Hsig. cbn [bind].
    unfold InterSpikeDemo.singlePulse. rewrite Hpulse. exact Hrun. }
  destruct (iaf_output_aligned sig pulse AP_Duration
              InterSpikeDemo.AP_threshold stream (proj1 HD) Hplen Hrun)
    as (_ & Hshort & _).
  assert (Hnonempty : 1 <= length sig) by (rewrite Hlen, Hlen0; lia).
  exists sig, stream.
  split; [exact Hsig|]. split; [exact Hstream|].
  split; [now rewrite Hlen|]. split; [lia|]. split.
  { eapply Forall_impl; [|exact Hgaps]. cbn beta. intros; lia. }
  intros i.
  destruct (index_time_base (length sig)) as (tb & Htb & Htblen & Htbk).
  destruct (index_time_base (length stream)) as (atb & Hatb & Hatblen & Hatbk).
  destruct (shift_left_samples tb i InterSpikeDemo.animationSpeed _
                               Htblen Htbk) as [Hx1 Hx1k].
  destruct (shift_left_samples atb i InterSpikeDemo.animationSpeed _
                               Hatblen Hatbk) as [Hx2 Hx2k].
  exists (shift_left tb i InterSpikeDemo.animationSpeed),
         (shift_left atb i InterSpikeDemo.animationSpeed).
  split; [|repeat split; assumption].
  unfold InterSpikeDemo.animate, InterSpikeDemo.timeBase,
    InterSpikeDemo.AP_tbase.
  rewrite Hsig, Hstream. cbn [bind]. rewrite Htb, Hatb. reflexivity.
Qed.

(** * The staged signal of the latency script *)

Section Blocks.

Context {A : Type}.
Variable block : nat -> list A.
Variable L : nat.

Lemma concat_blocks_length (n : nat) :
  (forall i, i < n -> length (block i) = L) ->
  length (concat (map block (seq 0 n))) = n * L.
Proof.
  induction n as [|n IH]; intros Hlen; [reflexivity|].
  rewrite seq_S, map_app, concat_app, length_app, IH by (intros; apply Hlen; lia).
  cbn [Nat.add map concat]. rewrite app_nil_r, Hlen by lia. lia.
Qed.

(** Sample [r] of block [i] is sample [i * L + r] of the whole. *)
Lemma nth_error_concat_blocks (n : nat) :
  (forall i, i < n -> length (block i) = L) ->
  forall i r, i < n -> r < L ->
              nth_error (concat (map block (seq 0 n))) (i * L + r) =
              nth_error (block i) r.
Proof.
  induction n as [|n IH]; intros Hlen i r Hi Hr; [lia|].
  assert (Hbefore : length (concat (map block (seq 0 n))) = n * L)
    by (apply concat_blocks_length; intros; apply Hlen; lia).
  rewrite seq_S, map_app, concat_app. cbn [Nat.add map concat].
  rewrite app_nil_r.
  destruct (Nat.eq_dec i n) as [-> | Hne].
  - rewrite nth_error_app2 by lia. f_equal. lia.
  - rewrite nth_error_app1 by nia.
    apply IH; [intros; apply Hlen; lia | lia | exact Hr].
Qed.

End Blocks.

Section StagedSignal.

Context {T : Type} `{SampleOps T} `{PulseOps T} `{SignalOps T}.
Variables pulseInterval PulseTime : Z.
Variable decayCoeff : T.
Hypothesis interval_not_negative : (0 <= pulseInterval)%Z.
Hypothesis time_not_negative : (0 <= PulseTime)%Z.

Let zeroVals : list T := repeat zero (Z.to_nat pulseInterval).
Let level (i : nat) : T := fdiv (of_int (Z.of_nat i + 1)) (of_int 4).
Let oneVals (i : nat) : list T :=
  map (fun one => fmul one (level i)) (repeat (of_int 1) (Z.to_nat PulseTime)).
Let decaySig (i : nat) : list T :=
  map (fun s => fmul (fexp (fmul (fneg decayCoeff) s)) (fsqrt (level i)))
      (map (linspace_point 0 (PulseTime - 1) PulseTime)
           (seq 0 (Z.to_nat PulseTime))).

Lemma stage_ok (st : list T * list T) (i : nat) :
  LatencyDemo.stage pulseInterval PulseTime decayCoeff st i =
  Ok (fst st ++ zeroVals ++ oneVals i, snd st ++ zeroVals ++ decaySig i).
Proof.
  unfold LatencyDemo.stage, np_ones.
  rewrite np_zeros_ok, np_linspace_ok by assumption.
  destruct (Z.ltb_spec PulseTime 0); [lia | reflexivity].
Qed.

Lemma stages_ok (n : nat) :
  forall s st,
    for_each (LatencyDemo.stage pulseInterval PulseTime decayCoeff)
             (seq s n) st =
    Ok (fst st ++ concat (map (fun i => zeroVals ++ oneVals i) (seq s n)),
        snd st ++ concat (map (fun i => zeroVals ++ decaySig i) (seq s n))).
Proof.
  induction n as [|n IH]; intros s st; cbn [seq for_each map concat].
  - now rewrite !app_nil_r, <- surjective_pairing.
  - rewrite stage_ok. cbn [bind]. rewrite IH. cbn [fst snd].
    now rewrite <- !app_assoc.
Qed.

Lemma staged_signal_ok (repetitions : nat) :
  LatencyDemo.staged_signal pulseInterval PulseTime repetitions decayCoeff =
  Ok (concat (map (fun i => zeroVals ++ oneVals i) (seq 0 repetitions))
        ++ zeroVals,
      concat (map (fun i => zeroVals ++ decaySig i) (seq 0 repetitions))
        ++ zeroVals).
Proof.
  unfold LatencyDemo.staged_signal. rewrite stages_ok. cbn [bind fst snd app].
  now rewrite np_zeros_ok by assumption.
Qed.

Let a : nat := Z.to_nat pulseInterval.
Let b : nat := Z.to_nat PulseTime.

(** The samples of the two signals, stage by stage: [a] zeros, then
    [b] samples of the plateau or of the decay, and [a] zeros after
    the last stage. *)
Lemma staged_signal_samples (repetitions : nat) :
  exists informationSig informationSigDecay,
    LatencyDemo.staged_signal pulseInterval PulseTime repetitions decayCoeff =
    Ok (informationSig, informationSigDecay) /\
    length informationSig = repetitions * (a + b) + a /\
    length informationSigDecay = repetitions * (a + b) + a /\
    (forall i r, i < repetitions -> r < a ->
       nth_error informationSig (i * (a + b) + r) = Some zero /\
       nth_error informationSigDecay (i * (a + b) + r) = Some zero) /\
    (forall i r, i < repetitions -> r < b ->
       nth_error informationSig (i * (a + b) + (a + r)) =
       Some (fmul (of_int 1) (level i)) /\
       nth_error informationSigDecay (i * (a + b) + (a + r)) =
       Some (fmul (fexp (fmul (fneg decayCoeff)
                              (linspace_point 0 (PulseTime - 1) PulseTime r)))
                  (fsqrt (level i)))) /\
    (forall r, r < a ->
       nth_error informationSig (repetitions * (a + b) + r) = Some zero /\
       nth_error informationSigDecay (repetitions * (a + b) + r) = Some zero).
Proof.
  rewrite staged_signal_ok. eexists. eexists. split; [reflexivity|].
  set (blockA := fun i => zeroVals ++ oneVals i).
  set (blockB := fun i => zeroVals ++ decaySig i).
  assert (Hz : length zeroVals = a) by apply repeat_length.
  assert (Hone : forall i, length (oneVals i) = b)
    by (intros i; unfold oneVals; now rewrite length_map, repeat_length).
  assert (Hdec : forall i, length (decaySig i) = b)
    by (intros i; unfold decaySig; now rewrite !length_map, length_seq).
  assert (HA : forall i, i < repetitions -> length (blockA i) = a + b)
    by (intros i _; unfold blockA; now rewrite length_app, Hz, Hone).
  assert (HB : forall i, i < repetitions -> length (blockB i) = a + b)
    by (intros i _; unfold blockB; now rewrite length_app, Hz, Hdec).
  pose proof (concat_blocks_length blockA (a + b) repetitions HA) as HlenA.
  pose proof (concat_blocks_length blockB (a + b) repetitions HB) as HlenB.
  split; [now rewrite length_app, HlenA, Hz|].
  split; [now rewrite length_app, HlenB, Hz|].
  split; [|split].
  - intros i r Hi Hr.
    rewrite !nth_error_app1 by (rewrite ?HlenA, ?HlenB; nia).
    rewrite (nth_error_concat_blocks blockA (a + b) repetitions HA) by lia.
    rewrite (nth_error_concat_blocks blockB (a + b) repetitions HB) by lia.
    unfold blockA, blockB. rewrite !nth_error_app1 by lia.
    split; apply nth_error_repeat; exact Hr.
  - intros i r Hi Hr.
    rewrite !nth_error_app1 by (rewrite ?HlenA, ?HlenB; nia).
    rewrite (nth_error_concat_blocks blockA (a + b) repetitions HA) by lia.
    rewrite (nth_error_concat_blocks blockB (a + b) repetitions HB) by lia.
    unfold blockA, blockB. rewrite !nth_error_app2 by lia.
    rewrite Hz. replace (a + r - a) with r by lia.
    unfold oneVals, decaySig. rewrite !nth_error_map.
    rewrite nth_error_repeat by exact Hr.
    rewrite (nth_error_nth' _ 0) by (rewrite length_seq; exact Hr).
    rewrite seq_nth by exact Hr. split; reflexivity.
  - intros r Hr. rewrite !nth_error_app2 by lia.
    rewrite HlenA, HlenB.
    replace (repetitions * (a + b) + r - repetitions * (a + b)) with r by lia.
    split; apply nth_error_repeat; exact Hr.
Qed.

End StagedSignal.

Lemma stage_level_real (i : nat) :
  fmul (of_int 1) (fdiv (of_int (Z.of_nat i + 1)) (of_int 4)) =
  ((INR i + 1) / 4)%R /\
  fdiv (of_int (Z.of_nat i + 1)) (of_int 4) = ((INR i + 1) / 4)%R.
Proof.
  cbn [fmul fdiv of_int R_pulse]. rewrite plus_IZR, <- INR_IZR_INZ.
  split; lra.
Qed.

Lemma staged_signal_real (decayCoeff : R) :
  exists informationSig informationSigDecay,
    LatencyDemo.information_signal decayCoeff =
    Ok (informationSig, informationSigDecay) /\
    length informationSig = 4 * 2000 + 800 /\
    length informationSigDecay = 4 * 2000 + 800 /\
    (forall i r, i < 4 -> r < 800 ->
       nth_error informationSig (i * 2000 + r) = Some 0%R /\
       nth_error informationSigDecay (i * 2000 + r) = Some 0%R) /\
    (forall i r, i < 4 -> r < 1200 ->
       nth_error informationSig (i * 2000 + 800 + r) =
       Some ((INR i + 1) / 4)%R /\
       nth_error informationSigDecay (i * 2000 + 800 + r) =
       Some (exp (- decayCoeff * INR r) * sqrt ((INR i + 1) / 4))%R) /\
    (forall r, r < 800 ->
       nth_error informationSig (4 * 2000 + r) = Some 0%R /\
       nth_error informationSigDecay (4 * 2000 + r) = Some 0%R).
Proof.
  assert (Ha : (0 <= 800)%Z) by lia. assert (Hb : (0 <= 1200)%Z) by lia.
  destruct (staged_signal_samples 800 1200 decayCoeff Ha Hb 4)
    as (sig & decay & Hrun & Hl1 & Hl2 & Hzero & Hstage & Hend).
  assert (Ea : Z.to_nat 800 = 800) by lia.
  assert (Eb : Z.to_nat 1200 = 1200) by lia.
  rewrite Ea, Eb in Hl1, Hl2, Hzero, Hstage, Hend.
  exists sig, decay. split; [exact Hrun|].
  split; [rewrite Hl1; lia|]. split; [rewrite Hl2; lia|].
  split; [|split].
  - intros i r Hi Hr.
    replace (i * 2000 + r) with (i * (800 + 1200) + r) by lia.
    now apply Hzero.
  - intros i r Hi Hr.
    replace (i * 2000 + 800 + r) with (i * (800 + 1200) + (800 + r)) by lia.
    destruct (Hstage i r Hi Hr) as [H1 H2]. rewrite H1, H2.
    destruct (stage_level_real i) as [E1 E2]. rewrite E1, E2.
    split; [reflexivity|]. do 3 f_equal.
    replace 1200%Z with (Z.of_nat 1200) by lia.
    rewrite (index_time_base_point 1200 r Hr). reflexivity.
  - intros r Hr.
    replace (4 * 2000 + r) with (4 * (800 + 1200) + r) by lia.
    now apply Hend.
Qed.

(** X15.  The staged signal of the latency script, whatever the decay
    coefficient: both arrays have 8800 samples; each of the four
    stages is 800 zeros followed by 1200 samples, the plateau
    [(i + 1) / 4] in the displayed signal and
    [exp(-decayCoeff * r) * sqrt((i + 1) / 4)] in the encoded one; 800
    zeros close both. *)
Theorem staged_information_signal_samples (decayCoeff : R) :
  exists informationSig informationSigDecay,
    LatencyDemo.information_signal decayCoeff =
    Ok (informationSig, informationSigDecay) /\
    length informationSig = 4 * 2000 + 800 /\
    length informationSigDecay = 4 * 2000 + 800 /\
    (forall i r, i < 4 -> r < 800 ->
       nth_error informationSig (i * 2000 + r) = Some 0%R /\
       nth_error informationSigDecay (i * 2000 + r) = Some 0%R) /\
    (forall i r, i < 4 -> r < 1200 ->
       nth_error informationSig (i * 2000 + 800 + r) =
       Some ((INR i + 1) / 4)%R /\
       nth_error informationSigDecay (i * 2000 + 800 + r) =
       Some (exp (- decayCoeff * INR r) * sqrt ((INR i + 1) / 4))%R) /\
    (forall r, r < 800 ->
       nth_error informationSig (4 * 2000 + r) = Some 0%R /\
       nth_error informationSigDecay (4 * 2000 + r) = Some 0%R).
Proof.
  exact (staged_signal_real decayCoeff).
Qed.

(** Every index of the staged signal is in the silent part of a stage,
    in its active part, or in the closing silence. *)
Lemma staged_position (j : nat) :
  j < 4 * 2000 + 800 ->
  (exists i r, i < 4 /\ r < 800 /\ j = i * 2000 + r) \/
  (exists i r, i < 4 /\ r < 1200 /\ j = i * 2000 + 800 + r) \/
  (exists r, r < 800 /\ j = 4 * 2000 + r).
Proof.
  intros Hj.
  destruct (Nat.lt_ge_cases j (4 * 2000)) as [Hin | Hout].
  - assert (Hi : exists i, i < 4 /\ i * 2000 <= j < i * 2000 + 2000).
    { destruct (Nat.lt_ge_cases j 2000); [exists 0; lia|].
      destruct (Nat.lt_ge_cases j (2 * 2000)); [exists 1; lia|].
      destruct (Nat.lt_ge_cases j (3 * 2000)); [exists 2; lia|].
      exists 3; lia. }
    destruct Hi as (i & Hi & Hrange).
    destruct (Nat.lt_ge_cases (j - i * 2000) 800).
    + left. exists i, (j - i * 2000). lia.
    + right; left. exists i, (j - i * 2000 - 800). lia.
  - right; right. exists (j - 4 * 2000). lia.
Qed.

Lemma stage_level_range (i : nat) :
  i < 4 -> (0 < (INR i + 1) / 4 <= 1)%R.
Proof.
  intros Hi. assert (H0 : (0 <= INR i)%R) by apply pos_INR.
  assert (H3 : (INR i <= INR 3)%R) by (apply le_INR; lia).
  cbn [INR] in H3. lra.
Qed.

Lemma decay_sample_range (decayCoeff : R) (i r : nat) :
  i < 4 ->
  let y := (exp (- decayCoeff * INR r) * sqrt ((INR i + 1) / 4))%R in
  (0 < y)%R /\ ((0 <= decayCoeff)%R -> (y <= 1)%R).
Proof.
  intros Hi y. subst y.
  destruct (stage_level_range i Hi) as [Hpos Hle].
  assert (Hs0 : (0 < sqrt ((INR i + 1) / 4))%R) by now apply sqrt_lt_R0.
  assert (Hs1 : (sqrt ((INR i + 1) / 4) <= 1)%R).
  { pose proof (sqrt_le_1 ((INR i + 1) / 4) 1) as Hs.
    rewrite sqrt_1 in Hs. apply Hs; lra. }
  pose proof (exp_pos (- decayCoeff * INR r)) as He0.
  split; [now apply Rmult_lt_0_compat|]. intros Hk.
  assert (Hr : (0 <= INR r)%R) by apply pos_INR.
  assert (Harg : (- decayCoeff * INR r <= 0)%R) by nra.
  destruct (exp_nonpos_at_most_one _ Harg) as [_ He1]. nra.
Qed.

Lemma staged_signals_real_ranges (decayCoeff : R)
      (informationSig informationSigDecay : list R) :
  LatencyDemo.information_signal decayCoeff =
  Ok (informationSig, informationSigDecay) ->
  forall j x y,
    nth_error informationSig j = Some x ->
    nth_error informationSigDecay j = Some y ->
    (x = 0%R <-> y = 0%R) /\
    (0 <= x <= 1)%R /\ (0 <= y)%R /\
    ((0 <= decayCoeff)%R -> (y <= 1)%R).
Proof.
  intros Hrun j x y Hx Hy.
  destruct (staged_signal_real decayCoeff)
    as (sig & decay & Hrun' & Hl1 & _ & Hzero & Hstage & Hend).
  rewrite Hrun in Hrun'. injection Hrun' as <- <-.
  assert (Hj : j < 4 * 2000 + 800).
  { rewrite <- Hl1. apply nth_error_Some. congruence. }
  destruct (staged_position j Hj)
    as [(i & r & Hi & Hr & ->) | [(i & r & Hi & Hr & ->) | (r & Hr & ->)]].
  - destruct (Hzero i r Hi Hr) as [E1 E2].
    rewrite E1 in Hx. rewrite E2 in Hy.
    injection Hx as <-. injection Hy as <-.
    repeat split; intros; lra.
  - destruct (Hstage i r Hi Hr) as [E1 E2].
    rewrite E1 in Hx. rewrite E2 in Hy.
    injection Hx as <-. injection Hy as <-.
    destruct (stage_level_range i Hi) as [Hpos Hle].
    destruct (decay_sample_range decayCoeff i r Hi) as [Hy0 Hy1].
    cbn zeta in Hy0, Hy1.
    repeat split; intros; try lra; now apply Hy1.
  - destruct (Hend r Hr) as [E1 E2].
    rewrite E1 in Hx. rewrite E2 in Hy.
    injection Hx as <-. injection Hy as <-.
    repeat split; intros; lra.
Qed.



(** X17.  The latency script runs through: its two signals have 8800
    samples, the gated encoder returns a spike train of exactly that
    length whose occurrences are at least 99 apart, and in every frame
    [animate] hands both lines a time base as long as their curves,
    where sample [k] is at the time [k - 15 * i]. *)
Theorem latency_script_runs :
  exists informationSig informationSigDecay stream,
    LatencyDemo.signals = Ok (informationSig, informationSigDecay) /\
    LatencyDemo.AP_Stream = Ok stream /\
    length informationSig = 4 * 2000 + 800 /\
    length stream = length informationSig /\
    Forall (fun g => (99 <= g)%Z)
           (gaps (Latency.AP_Occurance informationSigDecay
                                       LatencyDemo.AP_threshold)) /\
    forall i,
    exists t_updated,
      LatencyDemo.animate i =
      Ok ((t_updated, informationSig), (t_updated, stream)) /\
      length t_updated = length informationSig /\
      (forall k, k < length informationSig ->
                 nth_error t_updated k = Some (INR k - IZR (i * 15))%R).
Proof.
  destruct (staged_signal_real 0.001%R)
    as (sig & decay & Hrun & Hl1 & Hl2 & _).
  assert (Hsmall : Forall (fun y => (y <= 1)%R) decay).
  { apply Forall_forall. intros y Hy.
    destruct (In_nth_error _ _ Hy) as [j Hj].
    assert (Hlt : j < length sig).
    { rewrite Hl1, <- Hl2. apply nth_error_Some. congruence. }
    destruct (nth_error sig j) as [x|] eqn:Hx;
      [|apply nth_error_None in Hx; lia].
    destruct (staged_signals_real_ranges 0.001%R sig decay Hrun j x y Hx Hj)
      as (_ & _ & _ & Hle).
    apply Hle. lra. }
  destruct demo_pulse_shape as (pulse & Hpulse & Hplen).
  assert (Hthr : (INR 100 - 1 < LatencyDemo.AP_threshold)%R).
  { unfold LatencyDemo.AP_threshold. rewrite INR_IZR_INZ.
    replace (Z.of_nat 100) with 100%Z by lia. lra. }
  destruct (real_bounded_samples decay pulse AP_Duration
              LatencyDemo.AP_threshold 100 Hsmall Hthr)
    as (_ & (Hgaps & _) & Hruns).
  assert (HD : (0 <= AP_Duration <= Z.of_nat 100 - 1)%Z)
    by (unfold AP_Duration; lia).
  destruct (proj2 (Hruns HD)) as [stream Hstream].
  destruct (ttfs_output_aligned decay pulse AP_Duration
              LatencyDemo.AP_threshold stream (proj1 HD) Hplen Hstream)
    as (Hlen & _).
  assert (Hap : LatencyDemo.AP_Stream = Ok stream).
  { unfold LatencyDemo.AP_Stream, LatencyDemo.signals. rewrite Hrun.
    cbn [bind snd]. unfold LatencyDemo.singlePulse. rewrite Hpulse.
    exact Hstream. }
  exists sig, decay, stream.
  split; [exact Hrun|]. split; [exact Hap|]. split; [exact Hl1|].
  split; [rewrite Hlen, Hl1, Hl2; lia|]. split.
  { eapply Forall_impl; [|exact Hgaps]. cbn beta. intros; lia. }
  intros i.
  destruct (index_time_base (length sig)) as (tb & Htb & Htblen & Htbk).
  destruct (shift_left_samples tb i LatencyDemo.animationSpeed _
                               Htblen Htbk) as [Hx Hxk].
  exists (shift_left tb i LatencyDemo.animationSpeed).
  split; [|split; assumption].
  unfold LatencyDemo.animate, LatencyDemo.timeBase, LatencyDemo.signals.
  rewrite Hap, Hrun. cbn [bind fst]. rewrite Htb. reflexivity.
Qed.

(** * What the spikes say about the signal, on the reals *)



Lemma real_geb_false (v thr : R) : geb v thr = false <-> (v < thr)%R.
Proof.
  cbn [geb R_samples]. destruct (Rle_dec thr v); split; intros;
    try reflexivity; try discriminate; lra.
Qed.




Section FirstSpike.

Variable upd : R -> R -> R.
Variable thr : R.

(** The states the loop can be in, and the update being monotone on
    them. *)
Variable reachable : R -> Prop.
Hypothesis reachable_upd : forall a x, reachable a -> reachable (upd a x).
Hypothesis upd_monotone :
  forall a b x y, reachable a -> reachable b ->
                  (a <= b)%R -> (x <= y)%R -> (upd a x <= upd b y)%R.

Lemma first_spike_no_later (sig1 sig2 : list R) :
  Forall2 Rle sig1 sig2 ->
  forall i a b q1 rest1,
    reachable a -> reachable b -> (a <= b)%R ->
    spikes_from upd thr i sig1 a = q1 :: rest1 ->
    exists q2 rest2,
      spikes_from upd thr i sig2 b = q2 :: rest2 /\ q2 <= q1.
Proof.
  intros Hle. induction Hle as [|x y sig1 sig2 Hxy _ IH];
    intros i a b q1 rest1 Ha Hb Hab; cbn [spikes_from]; [discriminate|].
  pose proof (upd_monotone a b x y Ha Hb Hab Hxy) as Hv.
  destruct (geb (upd b y) thr) eqn:H2.
  - intros Hq1. exists i. eexists. split; [reflexivity|].
    assert (Hin : In q1 (spikes_from upd thr i (x :: sig1) a)).
    { cbn [spikes_from]. rewrite Hq1. now left. }
    apply spikes_from_bounds in Hin. lia.
  - apply real_geb_false in H2.
    assert (H1 : geb (upd a x) thr = false) by (apply real_geb_false; lra).
    rewrite H1. intros Hq1.
    exact (IH (S i) _ _ q1 rest1 (reachable_upd a x Ha)
              (reachable_upd b y Hb) Hv Hq1).
Qed.

End FirstSpike.

Lemma iaf_update_monotone (a b x y : R) :
  True -> True -> (a <= b)%R -> (x <= y)%R ->
  (iaf_update a x <= iaf_update b y)%R.
Proof. intros _ _ Hab Hxy. unfold iaf_update. cbn [add R_samples]. lra. Qed.

Lemma ttfs_update_not_negative (a x : R) :
  (0 <= a)%R -> (0 <= ttfs_update a x)%R.
Proof.
  intros Ha. unfold ttfs_update. cbn [gtb add zero R_samples].
  destruct (Rlt_dec 0 x); lra.
Qed.

Lemma ttfs_update_monotone (a b x y : R) :
  (0 <= a)%R -> (0 <= b)%R -> (a <= b)%R -> (x <= y)%R ->
  (ttfs_update a x <= ttfs_update b y)%R.
Proof.
  intros Ha Hb Hab Hxy. unfold ttfs_update. cbn [gtb add zero R_samples].
  destruct (Rlt_dec 0 x), (Rlt_dec 0 y); lra.
Qed.

(** X19.  A signal that is nowhere smaller fires its first spike no
    later, in both encoders: this is what lets a spike time stand for
    an intensity. *)
Theorem stronger_signal_fires_no_later (sig1 sig2 : list R) (thr : R) :
  Forall2 Rle sig1 sig2 ->
  (forall q1,
     hd_error (tl (InterSpike.AP_Occurance sig1 thr)) = Some q1 ->
     exists q2,
       hd_error (tl (InterSpike.AP_Occurance sig2 thr)) = Some q2 /\
       q2 <= q1) /\
  (forall q1,
     hd_error (tl (Latency.AP_Occurance sig1 thr)) = Some q1 ->
     exists q2,
       hd_error (tl (Latency.AP_Occurance sig2 thr)) = Some q2 /\
       q2 <= q1).
Proof.
  intros Hle. rewrite !iaf_occurrences, !ttfs_occurrences. cbn [tl]. split.
  - intros q1 Hq1.
    destruct (spikes_from iaf_update thr 0 sig1 zero) as [|q rest1] eqn:Hs;
      [discriminate|]. injection Hq1 as ->.
    destruct (first_spike_no_later iaf_update thr (fun _ => True)
                (fun _ _ _ => I) iaf_update_monotone sig1 sig2 Hle
                0 0%R 0%R q1 rest1 I I (Rle_refl _) Hs)
      as (q2 & rest2 & Hs2 & Hq).
    exists q2. change (@zero R R_samples) with 0%R. now rewrite Hs2.
  - intros q1 Hq1.
    destruct (spikes_from ttfs_update thr 0 sig1 zero) as [|q rest1] eqn:Hs;
      [discriminate|]. injection Hq1 as ->.
    destruct (first_spike_no_later ttfs_update thr (fun a => (0 <= a)%R)
                ttfs_update_not_negative ttfs_update_monotone
                sig1 sig2 Hle 0 0%R 0%R q1 rest1 (Rle_refl _) (Rle_refl _)
                (Rle_refl _) Hs)
      as (q2 & rest2 & Hs2 & Hq).
    exists q2. change (@zero R R_samples) with 0%R. now rewrite Hs2.
Qed.

(** X19 on two signals of two samples, threshold 1. *)
Lemma stronger_signal_fires_no_later_witness :
  let sig1 := [0.5; 0.5]%R in
  let sig2 := [1; 0.5]%R in
  Forall2 Rle sig1 sig2 /\
  forall q1,
    hd_error (tl (Latency.AP_Occurance sig1 1%R)) = Some q1 ->
    exists q2,
      hd_error (tl (Latency.AP_Occurance sig2 1%R)) = Some q2 /\ q2 <= q1.
Proof.
  intros sig1 sig2.
  assert (Hle : Forall2 Rle sig1 sig2) by (repeat constructor; lra).
  split; [exact Hle|].
  exact (proj2 (stronger_signal_fires_no_later sig1 sig2 1%R Hle)).
Defined.

(** * The two encoders on a signal without silence *)

Lemma spikes_from_same_update {T : Type} `{SampleOps T}
      (upd1 upd2 : T -> T -> T) (thr : T) (sig : list T) :
  Forall (fun x => forall acc, upd1 acc x = upd2 acc x) sig ->
  forall i acc,
    spikes_from upd1 thr i sig acc = spikes_from upd2 thr i sig acc.
Proof.
  intros Hsame. induction Hsame as [|x sig Hx _ IH]; intros i acc;
    cbn [spikes_from]; [reflexivity|].
  rewrite Hx. destruct (geb (upd2 acc x) thr); now rewrite IH.
Qed.

(** X20.  On a signal whose samples are all strictly positive the
    gate never closes: both encoders record the same occurrences, and
    what [timeToFirstSpike] returns is what [integrate_and_fire]
    returns, padded with zeros to the length of the input. *)
Theorem encoders_agree_without_silence {T : Type} `{SampleOps T}
        (sig singlePulse : list T) (D : Z) (thr : T) :
  Forall (fun x => gtb x zero = true) sig ->
  Latency.AP_Occurance sig thr = InterSpike.AP_Occurance sig thr /\
  forall out,
    InterSpike.integrate_and_fire sig singlePulse D thr = Ok out ->
    Latency.timeToFirstSpike sig singlePulse D thr =
    Ok (out ++ repeat zero (length sig - length out)).
Proof.
  intros Hpos.
  assert (Hocc : Latency.AP_Occurance sig thr = InterSpike.AP_Occurance sig thr).
  { rewrite ttfs_occurrences, iaf_occurrences. f_equal.
    apply spikes_from_same_update.
    eapply Forall_impl; [|exact Hpos]. cbn beta.
    intros x Hx acc. unfold ttfs_update, iaf_update. now rewrite Hx. }
  split; [exact Hocc|]. intros out Hout.
  unfold Latency.timeToFirstSpike. rewrite Hocc.
  unfold InterSpike.integrate_and_fire in Hout. rewrite Hout. cbn [bind].
  apply pad_to_input_spec.
Qed.

(** X20 on twelve samples of 3 with threshold 30. *)
Lemma encoders_agree_without_silence_witness :
  let sig := repeat 3%Q 12 in
  Latency.AP_Occurance sig 30%Q = [0; 9] /\
  InterSpike.AP_Occurance sig 30%Q = [0; 9].
Proof.
  intros sig.
  assert (Hpos : Forall (fun x : Q => gtb x zero = true) sig)
    by (repeat constructor).
  destruct (encoders_agree_without_silence sig demo_pulse AP_Duration 30%Q Hpos)
    as [Hocc _].
  split; [rewrite Hocc|]; reflexivity.
Defined.
